(** * PSJSModel: the pair-site joint-state IGC model

    A shallow embedding of [IGCexpansion/PSJSModel.py] (class [PSJSModel]):
    the parameter partitioner, the force-map partition, the transition
    compatibility predicate, the IGC rate calculator and the brute-force
    process-definition assembler, each written after the Python method of the
    same name.

    Conventions.
    - A Python call either returns a value or raises; [res A] records which.
      Methods that assign to fields of [self] are state transformers that
      hand back the instance as it is when the call ends, also when it ends
      in an exception (Python does not roll assignments back).
    - Numbers of the combined parameter vector and the rates are kept behind
      the interface [NpFloat] (the operations of numpy's float64 the code
      uses).  The code never branches on such a number, so its control flow is
      the same for every interpretation of the interface.
    - Statements about the size of a rate are made for every interpretation
      that obeys [Float64Laws]: a few facts of IEEE 754 binary64 arithmetic
      (sums with 0.0, quotients of equal numbers, sums and quotients of
      nonnegative numbers), stated on the value of a float, which is a finite
      number, an infinity or nan.
    - The worked examples use one interpretation, [option R]: exact real
      arithmetic, with [None] for a result that is no number (what 0.0 / 0.0
      gives in numpy).  It obeys the laws; it does not round or overflow, and
      no general statement is made about it alone.
    - The point-mutation collaborator [PMModel] lives in another file of the
      repository; it is taken as a parameter ([PMInterface]). *)

From Stdlib Require Import Reals Lra.
From stdpp Require Import gmap strings list fin_maps.

Local Open Scope Z_scope.

(** ** Outcomes of a Python call *)

Inductive exn : Type :=
| AssertionError
| SystemExit (msg : string)
| TypeError
| AttributeError
| ValueError
| IndexError.

Inductive res (A : Type) : Type :=
| Ok (a : A)
| Raise (e : exn).
Arguments Ok {A} a.
Arguments Raise {A} e.

#[global] Instance res_ret : MRet res := λ A a, Ok a.
#[global] Instance res_bind : MBind res := λ A B k r,
  match r with
  | Ok a => k a
  | Raise e => Raise e
  end.

(** [assert(b)] *)
Definition py_assert (b : bool) : res unit :=
  if b then Ok tt else Raise AssertionError.

(** [sys.exit(msg)] *)
Definition sys_exit {A} (msg : string) : res A := Raise (SystemExit msg).

(** A field that still holds [None] where the code needs a value. *)
Definition not_None {A} (o : option A) : res A :=
  match o with
  | Some a => Ok a
  | None => Raise TypeError
  end.

(** A field that still holds [None] where the code reads an attribute of it. *)
Definition attributes_of {A} (o : option A) : res A :=
  match o with
  | Some a => Ok a
  | None => Raise AttributeError
  end.

(** ** The float64 operations used by the code *)

Class NpFloat (F : Type) : Type := {
  f_zero : F;                 (* the literal 0.0 *)
  f_one : F;                  (* the literal 1 *)
  f_add : F → F → F;
  f_sub : F → F → F;
  f_mul : F → F → F;
  f_div : F → F → F;
  f_pow : F → Z → F;          (* x ** n, n a Python int *)
  f_exp : F → F               (* np.exp *)
}.

Declare Scope npf_scope.
Delimit Scope npf_scope with npf.
Infix "+" := f_add : npf_scope.
Infix "-" := f_sub : npf_scope.
Infix "*" := f_mul : npf_scope.
Infix "/" := f_div : npf_scope.
Infix "**" := f_pow (at level 30, right associativity) : npf_scope.

(** ** The point-mutation collaborator

    What [PSJSModel] uses of class [PMModel]: the class attribute
    [supported], the constructor, [update_by_x_pm] (which mutates the
    collaborator) and the rate table [Q_mut] indexed by a pair of symbols
    (indexing may raise). *)

Class PMInterface (F PM : Type) : Type := {
  PMModel_supported : list string;
  PMModel_new : string → list F → option (gmap Z F) → res PM;
  PM_update_by_x_pm : PM → list F → res unit * PM;
  PM_Q_mut : PM → Z → Z → res F
}.

(** ** Joint states and transitions *)

(** A state is a tuple of ints; a transition is the pair
    [(state_from, state_to)]. *)
Definition state : Type := list Z.
Definition transition : Type := (state * state)%type.

(** [s[i]] where the surrounding assertions have fixed [len(s)]. *)
Definition item (s : state) (i : nat) : Z := nth i s 0.

(** A caller may also hand a state over as a list.  [len] and indexing do not
    look at the type of a sequence, but [==] does: a tuple and a list are
    unequal whatever their entries. *)
Inductive sequence_type : Type := tuple_type | list_type.

#[global] Instance sequence_type_eq_dec : EqDecision sequence_type.
Proof. solve_decision. Defined.

Record sequence : Type := mk_sequence {
  type_of : sequence_type;
  entries : state
}.

(** [a == b] for two sequences of ints. *)
Definition sequence_eq (a b : sequence) : bool :=
  bool_decide (type_of a = type_of b) && bool_decide (entries a = entries b).

(** [[i for i in range(len(state_from)) if state_from[i] != state_to[i]]] *)
Definition diff_positions (state_from state_to : state) : list nat :=
  filter (fun i => item state_from i ≠ item state_to i) (seq 0 (length state_from)).

(** The test shared by lines 121-122 and 163-164. *)
Definition is_tract_copy (pos_list : list nat) (state_from state_to : state) : bool :=
  bool_decide (pos_list = [0; 1]%nat)
    && bool_decide (item state_to 0 = item state_from 2)
    && bool_decide (item state_to 1 = item state_from 3)
  || bool_decide (pos_list = [2; 3]%nat)
    && bool_decide (item state_to 2 = item state_from 0)
    && bool_decide (item state_to 3 = item state_from 1).

(** [get_other_pos]: same_paralog_other_pos, other_paralog_same_pos,
    other_paralog_other_pos. *)
Definition get_other_pos (pos : nat) : res (nat * nat * nat) :=
  match pos with
  | 0 => Ok (1, 2, 3)
  | 1 => Ok (0, 3, 2)
  | 2 => Ok (3, 0, 1)
  | 3 => Ok (2, 1, 0)
  | _ => sys_exit "Position out of range."
  end%nat.

(** [itertools.product(xs, repeat = k)]: the last coordinate runs fastest. *)
Fixpoint product_repeat {A} (xs : list A) (k : nat) : list (list A) :=
  match k with
  | O => [[]]
  | S k' => x ← xs; (fun t => x :: t) <$> product_repeat xs k'
  end.

(** The values held under the keys of a process definition. *)
Inductive column (F : Type) : Type :=
| StateColumn (states : list state)
| RateColumn (rates : list F).
Arguments StateColumn {F} states.
Arguments RateColumn {F} rates.

Section PSJS.
Context {F PM : Type} {NF : NpFloat F} {PMI : PMInterface F PM}.

(** ** The instance *)

Record PSJSModel : Type := mkPSJSModel {
  n_js : Z;
  x_js : list F;
  x_pm : option (list F);
  x_IGC : option (list F);
  IGC_force : option (gmap Z F);
  force : option (gmap Z F);
  IGC_pm : string;
  pm_model : string;
  n_orlg : Z;
  PMModel : option PM;
  state_space_shape : option (list Z)
}.

(** [PSJSModel.supported] *)
Definition supported : list string := ["One rate"].

(** ** [is_transition_compatible] *)

Definition is_transition_compatible (self : PSJSModel) (t : transition) : res bool :=
  (shape ← not_None (state_space_shape self);
   (* only consider two paralogs for now *)
   py_assert (bool_decide (length shape = 4%nat));;
   (* assert(len(transition) == 2): a transition is a pair *)
   let '(state_from, state_to) := t in
   py_assert (bool_decide (length state_from = length state_to)
              && bool_decide (length state_to = length shape));;
   if bool_decide (state_from = state_to) then Ok false
   else
     let pos_list := diff_positions state_from state_to in
     if bool_decide (2 < length pos_list)%nat then Ok false
     else if bool_decide (length pos_list = 2%nat) then
       if is_tract_copy pos_list state_from state_to then Ok true else Ok false
     else if bool_decide (length pos_list = 1%nat) then Ok true
     else sys_exit "Check is_transition_compatible function in PSJSModel class.").

(** [is_transition_compatible] on states that are tuples or lists: the
    same lines, with [state_from == state_to] as Python evaluates it on
    sequences of either type. *)
Definition is_transition_compatible_sequences (self : PSJSModel)
    (t : sequence * sequence) : res bool :=
  (shape ← not_None (state_space_shape self);
   py_assert (bool_decide (length shape = 4%nat));;
   let '(state_from, state_to) := t in
   py_assert (bool_decide (length (entries state_from) = length (entries state_to))
              && bool_decide (length (entries state_to) = length shape));;
   if sequence_eq state_from state_to then Ok false
   else
     let pos_list := diff_positions (entries state_from) (entries state_to) in
     if bool_decide (2 < length pos_list)%nat then Ok false
     else if bool_decide (length pos_list = 2%nat) then
       if is_tract_copy pos_list (entries state_from) (entries state_to)
       then Ok true else Ok false
     else if bool_decide (length pos_list = 1%nat) then Ok true
     else sys_exit "Check is_transition_compatible function in PSJSModel class.").

(** ** [cal_IGC_transition_rate] *)

(** [IGC_init / IGC_p * (1 - (1 - IGC_p) ** n)] *)
Definition IGC_0_not_n (IGC_init IGC_p : F) (n : Z) : F :=
  (IGC_init / IGC_p * (f_one - (f_one - IGC_p) ** n))%npf.

(** [IGC_init / IGC_p * (1 - IGC_p) ** n] *)
Definition IGC_0_and_n (IGC_init IGC_p : F) (n : Z) : F :=
  (IGC_init / IGC_p * (f_one - IGC_p) ** n)%npf.

(** [IGC_init, IGC_p = np.exp(self.x_IGC)] *)
Definition exp_x_IGC (self : PSJSModel) : res (F * F) :=
  (x ← not_None (x_IGC self);
   match f_exp <$> x with
   | [IGC_init; IGC_p] => Ok (IGC_init, IGC_p)
   | _ => Raise ValueError
   end).

Definition cal_IGC_transition_rate
    (self : PSJSModel) (t : transition) (n : Z) (proportion : bool) : res F :=
  (compatible ← is_transition_compatible self t;
   py_assert compatible;;
   let '(state_from, state_to) := t in
   let pos_list := diff_positions state_from state_to in
   if bool_decide (IGC_pm self = "One rate") then
     '(IGC_init, IGC_p) ← exp_x_IGC self;
     let not_n := IGC_0_not_n IGC_init IGC_p n in
     let and_n := IGC_0_and_n IGC_init IGC_p n in
     '(q_ij, q_IGC) ←
       (if bool_decide (length pos_list = 1%nat) then
          let pos := nth 0 pos_list 0%nat in
          '(same_paralog_other_pos, other_paralog_same_pos, other_paralog_other_pos)
            ← get_other_pos pos;
          pm ← attributes_of (PMModel self);
          q_ij ← PM_Q_mut pm (item state_from pos) (item state_to pos);
          if bool_decide (item state_to pos = item state_from other_paralog_same_pos)
             && bool_decide (item state_from same_paralog_other_pos
                             = item state_from other_paralog_other_pos)
          then Ok (q_ij, (not_n + and_n)%npf)
          else if bool_decide (item state_to pos = item state_from other_paralog_same_pos)
                  && bool_decide (item state_from same_paralog_other_pos
                                  ≠ item state_from other_paralog_other_pos)
          then Ok (q_ij, not_n)
          else Ok (q_ij, f_zero)
        else if bool_decide (length pos_list = 2%nat) then
          let q_ij := f_zero in
          if is_tract_copy pos_list state_from state_to
          then Ok (q_ij, and_n)
          else sys_exit "Transition not compatible!"
        else sys_exit "Transition not compatible! 2");
     if proportion then Ok (q_IGC / (q_ij + q_IGC))%npf
     else Ok (q_ij + q_IGC)%npf
   else sys_exit "Cal_IGC_transition_rate not implemented yet.").

(** ** Methods that assign to [self] *)

(** A method body: it starts from an instance and ends, normally or not,
    with the instance as the assignments made so far have left it. *)
Definition M (A : Type) : Type := PSJSModel → res A * PSJSModel.

#[local] Instance M_ret : MRet M := λ A a self, (Ok a, self).
#[local] Instance M_bind : MBind M := λ A B k m self,
  match m self with
  | (Ok a, self') => k a self'
  | (Raise e, self') => (Raise e, self')
  end.

Definition get_self : M PSJSModel := λ self, (Ok self, self).
Definition assign (f : PSJSModel → PSJSModel) : M unit := λ self, (Ok tt, f self).
Definition lift {A} (r : res A) : M A := λ self, (r, self).

Definition set_x_js (v : list F) (self : PSJSModel) : PSJSModel :=
  mkPSJSModel (n_js self) v (x_pm self) (x_IGC self) (IGC_force self) (force self)
    (IGC_pm self) (pm_model self) (n_orlg self) (PMModel self) (state_space_shape self).
Definition set_x_pm (v : option (list F)) (self : PSJSModel) : PSJSModel :=
  mkPSJSModel (n_js self) (x_js self) v (x_IGC self) (IGC_force self) (force self)
    (IGC_pm self) (pm_model self) (n_orlg self) (PMModel self) (state_space_shape self).
Definition set_x_IGC (v : option (list F)) (self : PSJSModel) : PSJSModel :=
  mkPSJSModel (n_js self) (x_js self) (x_pm self) v (IGC_force self) (force self)
    (IGC_pm self) (pm_model self) (n_orlg self) (PMModel self) (state_space_shape self).
Definition set_IGC_force (v : option (gmap Z F)) (self : PSJSModel) : PSJSModel :=
  mkPSJSModel (n_js self) (x_js self) (x_pm self) (x_IGC self) v (force self)
    (IGC_pm self) (pm_model self) (n_orlg self) (PMModel self) (state_space_shape self).
Definition set_PMModel (v : option PM) (self : PSJSModel) : PSJSModel :=
  mkPSJSModel (n_js self) (x_js self) (x_pm self) (x_IGC self) (IGC_force self) (force self)
    (IGC_pm self) (pm_model self) (n_orlg self) v (state_space_shape self).
Definition set_state_space_shape (v : option (list Z)) (self : PSJSModel) : PSJSModel :=
  mkPSJSModel (n_js self) (x_js self) (x_pm self) (x_IGC self) (IGC_force self) (force self)
    (IGC_pm self) (pm_model self) (n_orlg self) (PMModel self) v.

(** ** [unpack_x_js] *)

Definition unpack_x_js (x : list F) : M unit :=
  self ← get_self;
  (* first, check if the models are supported *)
  lift (py_assert (bool_decide (pm_model self ∈ PMModel_supported)));;
  lift (py_assert (bool_decide (IGC_pm self ∈ supported)));;
  num_x_pm ← (if bool_decide (pm_model self = "HKY") then mret 4%nat
              else lift (sys_exit "The point mutation model is not supported."));
  num_x_IGC ← (if bool_decide (IGC_pm self = "One rate") then mret 2%nat
               else lift (sys_exit "The IGC parameterization has not been implemented."));
  assign (set_x_pm (Some (take num_x_pm x)));;
  assign (set_x_IGC (Some (drop num_x_pm x)));;
  assign (set_x_js x);;
  self ← get_self;
  lift (py_assert (bool_decide ((num_x_pm + num_x_IGC)%nat = length (x_js self)))).

(** ** [update_by_x_js] *)

Definition update_by_x_js (new_x_js : list F) : M unit :=
  unpack_x_js new_x_js;;
  self ← get_self;
  pm ← lift (attributes_of (PMModel self));
  x ← lift (not_None (x_pm self));
  (* the collaborator is updated in place *)
  let '(r, pm') := PM_update_by_x_pm pm x in
  assign (set_PMModel (Some pm'));;
  lift r.

(** ** [divide_force] *)

(** The body of the loop over the keys of [self.force]. *)
Definition divide_step (num_x_pm : Z) (acc : gmap Z F * gmap Z F) (kv : Z * F)
    : gmap Z F * gmap Z F :=
  let '(pm_force, IGC_force) := acc in
  let '(key, value) := kv in
  if bool_decide (key < num_x_pm) then (<[key := value]> pm_force, IGC_force)
  else (pm_force, <[key - num_x_pm := value]> IGC_force).

(** [if not d.keys(): d = None] *)
Definition none_if_empty (d : gmap Z F) : option (gmap Z F) :=
  if bool_decide (map_to_list d = []) then None else Some d.

Definition divide_force (self : PSJSModel)
    : res (option (gmap Z F) * option (gmap Z F)) :=
  match force self with
  | None => Ok (None, None)
  | Some force =>
    (* first, check if the models are supported *)
    py_assert (bool_decide (pm_model self ∈ PMModel_supported));;
    py_assert (bool_decide (IGC_pm self ∈ supported));;
    num_x_pm ← (if bool_decide (pm_model self = "HKY") then Ok 4
                else sys_exit "The point mutation model is not supported.");
    num_x_IGC ← (if bool_decide (IGC_pm self = "One rate") then Ok 2
                 else sys_exit "The IGC parameterization has not been implemented.");
    let '(pm_force, IGC_force) :=
      foldl (divide_step num_x_pm) (∅, ∅) (map_to_list force) in
    Ok (none_if_empty pm_force, none_if_empty IGC_force)
  end.

(** ** [init_models] and the constructor *)

Definition init_models : M unit :=
  self ← get_self;
  unpack_x_js (x_js self);;
  self ← get_self;
  (if bool_decide (pm_model self = "HKY")
   then assign (set_state_space_shape (Some (replicate (Z.to_nat (n_js self * 2)) 4)))
   else lift (sys_exit "The point mutation model has not been implemented."));;
  self ← get_self;
  '(pm_force, IGC_force) ← lift (divide_force self);
  x ← lift (not_None (x_pm self));
  pm ← lift (PMModel_new (pm_model self) x pm_force);
  assign (set_PMModel (Some pm));;
  assign (set_IGC_force IGC_force);;
  self ← get_self;
  shape ← lift (not_None (state_space_shape self));
  (* now consider only same state space model *)
  lift (py_assert (bool_decide (size (list_to_set shape : gset Z) = 1%nat)));;
  self ← get_self;
  update_by_x_js (x_js self).

(** [PSJSModel(x_js, pm_model, n_orlg, IGC_pm, force, n_js)]: the object
    exists for the caller only when [__init__] returns. *)
Definition new_PSJSModel (x_js0 : list F) (pm_model0 : string) (n_orlg0 : Z)
    (IGC_pm0 : string) (force0 : option (gmap Z F)) (n_js0 : Z) : res PSJSModel :=
  let self :=
    {| n_js := n_js0; x_js := x_js0; x_pm := None; x_IGC := None;
       IGC_force := None; force := force0; IGC_pm := IGC_pm0;
       pm_model := pm_model0; n_orlg := n_orlg0; PMModel := None;
       state_space_shape := None |} in
  match init_models self with
  | (Ok _, self') => Ok self'
  | (Raise e, _) => Raise e
  end.

(** ** [get_IGC_transition_rates_BF] and [get_process_definition] *)

(** [itertools.product(range(self.state_space_shape[0]), repeat = self.n_js * 2)] *)
Definition enumerate_states (self : PSJSModel) : res (list state) :=
  shape ← not_None (state_space_shape self);
  size0 ← match shape with a :: _ => Ok a | [] => Raise IndexError end;
  if bool_decide (n_js self * 2 < 0) then Raise ValueError
  else Ok (product_repeat (seqZ 0 size0) (Z.to_nat (n_js self * 2))).

(** A [for] loop whose body yields: the items yielded, in order, up to the
    first exception. *)
Fixpoint for_yield {A B} (xs : list A) (body : A → res (list B)) : res (list B) :=
  match xs with
  | [] => Ok []
  | x :: xs' => ys ← body x; zs ← for_yield xs' body; Ok (ys ++ zs)
  end.

(** The generator, read as the list of what it yields when it is run to
    its end (which is how [get_process_definition] consumes it). *)
Definition get_IGC_transition_rates_BF
    (self : PSJSModel) (n : Z) (proportion : bool) : res (list (state * state * F)) :=
  states_from ← enumerate_states self;
  for_yield states_from (λ state_from,
    states_to ← enumerate_states self;
    for_yield states_to (λ state_to,
      compatible ← is_transition_compatible self (state_from, state_to);
      if compatible : bool then
        rate ← cal_IGC_transition_rate self (state_from, state_to) n proportion;
        Ok [(state_from, state_to, rate)]
      else Ok [])).

(** The three lists the loop of [get_process_definition] appends to. *)
Definition append_row (acc : list state * list state * list F) (row : state * state * F)
    : list state * list state * list F :=
  let '(row_states, column_states, transition_rates) := acc in
  let '(row_state, col_state, transition_rate) := row in
  (row_states ++ [row_state], column_states ++ [col_state],
   transition_rates ++ [transition_rate]).

Definition get_process_definition
    (self : PSJSModel) (n : Z) (proportion : bool) : res (gmap string (column F)) :=
  rows ← get_IGC_transition_rates_BF self n proportion;
  let '(row_states, column_states, transition_rates) :=
    foldl append_row ([], [], []) rows in
  if proportion then
    Ok (<["row_states" := StateColumn row_states]>
        (<["column_states" := StateColumn column_states]>
         (<["weights" := RateColumn transition_rates]> ∅)))
  else
    Ok (<["row_states" := StateColumn row_states]>
        (<["column_states" := StateColumn column_states]>
         (<["transition_rates" := RateColumn transition_rates]> ∅))).

End PSJS.

Arguments PSJSModel F PM : clear implicits.
Arguments M F PM A : clear implicits.

(** ** An interpretation of the numbers: reals, with "not finite"

    The interpretation of the worked examples.  [Some r] is the finite number
    [r], computed without rounding; [None] stands for a result that is no
    finite number (numpy's [nan] and [inf], which a division by zero produces
    with a warning and no exception).  It idealises float64: nothing rounds,
    underflows or overflows. *)

#[global] Instance R_eq_dec : EqDecision R := Req_EM_T.

Definition real_lift2 (op : R → R → R) (a b : option R) : option R :=
  match a, b with
  | Some x, Some y => Some (op x y)
  | _, _ => None
  end.

Definition real_div (a b : option R) : option R :=
  match a, b with
  | Some x, Some y => if decide (y = 0%R) then None else Some (x / y)%R
  | _, _ => None
  end.

Definition real_pow (a : option R) (n : Z) : option R :=
  match a with
  | Some x => if decide (x = 0%R ∧ n < 0) then None else Some (powerRZ x n)
  | None => None
  end.

Arguments real_div : simpl never.
Arguments real_pow : simpl never.

#[global] Instance real_NpFloat : NpFloat (option R) := {|
  f_zero := Some 0%R;
  f_one := Some 1%R;
  f_add := real_lift2 Rplus;
  f_sub := real_lift2 Rminus;
  f_mul := real_lift2 Rmult;
  f_div := real_div;
  f_pow := real_pow;
  f_exp := fmap exp
|}.

(** ** The value of a float64, and the facts of its arithmetic in use

    A float64 is worth a finite number (both zeros are the number 0), an
    infinity or nan. *)
Inductive float_value : Type :=
| Finite (r : R)
| PosInf
| NegInf
| NaN.

Class FloatValue (F : Type) : Type := f_value : F → float_value.

(** What the statements about the size of a rate use of IEEE 754 binary64
    arithmetic as numpy performs it (round to nearest; an overflow, a division
    by zero or an invalid operation gives inf or nan with a warning, and no
    exception):
    - [0.0 + x] has the value of [x];
    - the sum of two nonnegative finite numbers is rounded to a finite number
      that is no smaller than either of them, or overflows to inf, and a
      finite number plus inf is inf;
    - [x / y] for [x] and [y] of one value is 1.0 when that value is finite
      and not zero, and nan when it is zero, an infinity or nan;
    - [x / y] for finite [0 <= x <= y] with [0 < y] is a finite number between
      0 and 1, and a finite number divided by inf is 0. *)
Class Float64Laws (F : Type) `{NpFloat F} `{FloatValue F} : Prop := {
  value_zero : f_value f_zero = Finite 0;
  add_zero_l x : f_value (f_zero + x)%npf = f_value x;
  add_nonneg x y a b :
    f_value x = Finite a → f_value y = Finite b → (0 <= a)%R → (0 <= b)%R →
    f_value (x + y)%npf = PosInf
    ∨ ∃ s, f_value (x + y)%npf = Finite s ∧ (a <= s)%R ∧ (b <= s)%R;
  add_inf x y a :
    f_value x = Finite a → f_value y = PosInf → f_value (x + y)%npf = PosInf;
  div_same x y r :
    f_value x = Finite r → f_value y = Finite r → r ≠ 0%R →
    f_value (x / y)%npf = Finite 1;
  div_zero_zero x y :
    f_value x = Finite 0 → f_value y = Finite 0 → f_value (x / y)%npf = NaN;
  div_not_finite x y :
    (∀ r, f_value x ≠ Finite r) → f_value y = f_value x →
    f_value (x / y)%npf = NaN;
  div_le x y a b :
    f_value x = Finite a → f_value y = Finite b → (0 <= a <= b)%R → (0 < b)%R →
    ∃ c, f_value (x / y)%npf = Finite c ∧ (0 <= c <= 1)%R;
  div_by_inf x y a :
    f_value x = Finite a → f_value y = PosInf → f_value (x / y)%npf = Finite 0
}.

(** The value of a number of the exact interpretation ([None] is read as
    nan: the examples reach it through [0.0 / 0.0] only). *)
#[global] Instance real_value : FloatValue (option R) := λ x,
  match x with
  | Some r => Finite r
  | None => NaN
  end.

(** Spec: a float that is a nonnegative finite number or inf. *)
Definition nonneg_or_inf {F : Type} `{FloatValue F} (x : F) : Prop :=
  f_value x = PosInf ∨ ∃ r, f_value x = Finite r ∧ (0 <= r)%R.

(** ** A sample collaborator

    Modelled from the spec: class [PMModel] of [IGCexpansion/PMModel.py],
    which is not among the sources.  The sample keeps the name, the parameter
    slice and the force map it was built from, supports "HKY" only, and
    exposes a 4 x 4 table with rate 1/4 between distinct nucleotides; indices
    follow numpy (a negative index counts from the end, anything else out of
    range raises). *)

Record sample_PM : Type := mk_sample_PM {
  sample_name : string;
  sample_x_pm : list (option R);
  sample_force : option (gmap Z (option R))
}.

Definition sample_Q_mut (pm : sample_PM) (a b : Z) : res (option R) :=
  if bool_decide (-4 ≤ a < 4 ∧ -4 ≤ b < 4) then
    Ok (Some (if bool_decide (a `mod` 4 = b `mod` 4) then (-3 / 4)%R else (1 / 4)%R))
  else Raise IndexError.

#[global] Instance sample_PMInterface : PMInterface (option R) sample_PM := {|
  PMModel_supported := ["HKY"];
  PMModel_new name x force := Ok (mk_sample_PM name x force);
  PM_update_by_x_pm pm x := (Ok tt, mk_sample_PM (sample_name pm) x (sample_force pm));
  PM_Q_mut := sample_Q_mut
|}.

(** The parameters of the script at the end of the source file:
    [log([0.3, 0.5, 0.2, 9.5])] followed by [log([0.3, 1.0 / 30.0])]. *)
Definition main_x_js : list (option R) :=
  [Some (ln (3 / 10)); Some (ln (5 / 10)); Some (ln (2 / 10)); Some (ln (95 / 10));
   Some (ln (3 / 10)); Some (ln (1 / 30))].

(** [test = PSJSModel(x_js, 'HKY', 3, 'One rate')] as the constructor leaves it. *)
Definition main_model : PSJSModel (option R) sample_PM :=
  {| n_js := 2; x_js := main_x_js;
     x_pm := Some (take 4 main_x_js); x_IGC := Some (drop 4 main_x_js);
     IGC_force := None; force := None; IGC_pm := "One rate"; pm_model := "HKY";
     n_orlg := 3;
     PMModel := Some (mk_sample_PM "HKY" (take 4 main_x_js) None);
     state_space_shape := Some [4; 4; 4; 4] |}.

(** ** Vocabulary of the specification *)

(** Spec: the number of coordinates at which two states differ. *)
Definition n_differing (state_from state_to : state) : nat :=
  length (filter (λ p, p.1 ≠ p.2) (zip state_from state_to)).

(** Spec: the adjacency mapping of the four coordinates,
    [(same_paralog_other_site, other_paralog_same_site, other_paralog_other_site)]
    for index 0, 1, 2 and 3. *)
Definition adjacency : list (nat * nat * nat) :=
  [(1, 2, 3); (0, 3, 2); (3, 0, 1); (2, 1, 0)]%nat.

(** Spec: the IGC contribution to a single-coordinate transition at [pos],
    given the two tract rates. *)
Definition igc_contribution {F} `{NpFloat F}
    (state_from state_to : state) (pos : nat) (excludes_n includes_n : F) : F :=
  let '(same_paralog_other_site, other_paralog_same_site, other_paralog_other_site) :=
    nth pos adjacency (0, 0, 0)%nat in
  if decide (item state_to pos = item state_from other_paralog_same_site) then
    if decide (item state_from same_paralog_other_site
               = item state_from other_paralog_other_site)
    then (excludes_n + includes_n)%npf
    else excludes_n
  else f_zero.

(** The instance the constructor builds from the script's point-mutation
    parameters followed by the IGC slice [[a, b]]. *)
Definition model_with_x_IGC (a b : R) : PSJSModel (option R) sample_PM :=
  let x := take 4 main_x_js ++ [Some a; Some b] in
  {| n_js := 2; x_js := x;
     x_pm := Some (take 4 x); x_IGC := Some (drop 4 x);
     IGC_force := None; force := None; IGC_pm := "One rate"; pm_model := "HKY";
     n_orlg := 3;
     PMModel := Some (mk_sample_PM "HKY" (take 4 x) None);
     state_space_shape := Some [4; 4; 4; 4] |}.

(** Spec: a configuration error is a failed assertion or a [sys.exit]. *)
Definition configuration_error (e : exn) : Prop :=
  e = AssertionError ∨ ∃ msg, e = SystemExit msg.

(** The script's instance with a force map: parameter 0 fixed to [ln (3 / 10)]
    and parameter 5 fixed to [0]. *)
Definition forced_model : PSJSModel (option R) sample_PM :=
  let f : gmap Z (option R) := {[ 0 := Some (ln (3 / 10)); 5 := Some 0%R ]} in
  {| n_js := 2; x_js := main_x_js;
     x_pm := Some (take 4 main_x_js); x_IGC := Some (drop 4 main_x_js);
     IGC_force := Some {[ 1 := Some 0%R ]}; force := Some f;
     IGC_pm := "One rate"; pm_model := "HKY"; n_orlg := 3;
     PMModel := Some (mk_sample_PM "HKY" (take 4 main_x_js)
                        (Some {[ 0 := Some (ln (3 / 10)) ]}));
     state_space_shape := Some [4; 4; 4; 4] |}.

(** Spec: an empty map is normalized to absence. *)
Definition absent_if_empty {V} (d : gmap Z V) : option (gmap Z V) :=
  if decide (d = ∅) then None else Some d.

(** Spec: the 4-coordinate state space over an alphabet of the given size,
    in lexicographic order. *)
Definition joint_states (alphabet : Z) : list state :=
  ia ← seqZ 0 alphabet; ib ← seqZ 0 alphabet;
  ja ← seqZ 0 alphabet; jb ← seqZ 0 alphabet; [[ia; ib; ja; jb]].

Section AssemblerSpec.
Context {F PM : Type} {NF : NpFloat F} {PMI : PMInterface F PM}.

(** Spec: the predicate, as a test. *)
Definition compatible (self : PSJSModel F PM) (t : transition) : bool :=
  match is_transition_compatible self t with
  | Ok true => true
  | _ => false
  end.

(** Spec: the pairs of the cartesian product of the state space with itself
    that pass the predicate, in order. *)
Definition compatible_pairs (self : PSJSModel F PM) (alphabet : Z) : list transition :=
  filter (λ t, compatible self t)
    (list_prod (joint_states alphabet) (joint_states alphabet)).

(** Spec: the process definition, put together from the predicate and the
    calculator. *)
Definition process_definition_spec (self : PSJSModel F PM) (alphabet : Z)
    (n : Z) (proportion : bool) : res (gmap string (column F)) :=
  let pairs := compatible_pairs self alphabet in
  rates ← mapM (λ t, cal_IGC_transition_rate self t n proportion) pairs;
  Ok {[ "row_states" := StateColumn pairs.*1;
        "column_states" := StateColumn pairs.*2;
        (if proportion then "weights" else "transition_rates") := RateColumn rates ]}.

(** The body of the two loops of [get_IGC_transition_rates_BF]. *)
Definition yield_rate (self : PSJSModel F PM) (n : Z) (proportion : bool) (t : transition)
    : res (list (state * state * F)) :=
  let '(state_from, state_to) := t in
  compatible ← is_transition_compatible self (state_from, state_to);
  if compatible : bool then
    rate ← cal_IGC_transition_rate self (state_from, state_to) n proportion;
    Ok [(state_from, state_to, rate)]
  else Ok [].
End AssemblerSpec.

(** The instance the constructor builds from the script's parameters with
    [n_js = 3]. *)
Definition three_js_model : PSJSModel (option R) sample_PM :=
  {| n_js := 3; x_js := main_x_js;
     x_pm := Some (take 4 main_x_js); x_IGC := Some (drop 4 main_x_js);
     IGC_force := None; force := None; IGC_pm := "One rate"; pm_model := "HKY";
     n_orlg := 3;
     PMModel := Some (mk_sample_PM "HKY" (take 4 main_x_js) None);
     state_space_shape := Some [4; 4; 4; 4; 4; 4] |}.

(** The joint state with the two paralogs exchanged, and the one with the two
    sites exchanged (layout [(ia, ib, ja, jb)]). *)
Definition swap_paralogs (s : state) : state :=
  [item s 2; item s 3; item s 0; item s 1].
Definition swap_sites (s : state) : state :=
  [item s 1; item s 0; item s 3; item s 2].

(** Spec: the global index of the IGC parameter with local index [key] (the
    inverse of the re-indexing done by [divide_force]). *)
Definition global_IGC_index (key : Z) : Z := key + 4.

#[global] Instance global_IGC_index_inj : Inj (=) (=) global_IGC_index.
Proof. intros k1 k2. unfold global_IGC_index. lia. Qed.

(** Spec: an absent map constrains nothing. *)
Definition constraints {V} (o : option (gmap Z V)) : gmap Z V := default ∅ o.

(** Spec: an IGC force map under the global indices. *)
Definition to_global_indices {V} (d : gmap Z V) : gmap Z V :=
  kmap global_IGC_index d.

Section ConstructorSpec.
Context {F PM : Type} {NF : NpFloat F} {PMI : PMInterface F PM}.

(** The fields as [__init__] assigns them before it calls [init_models]. *)
Definition fresh_PSJSModel (x_js0 : list F) (pm_model0 : string) (n_orlg0 : Z)
    (IGC_pm0 : string) (force0 : option (gmap Z F)) (n_js0 : Z) : PSJSModel F PM :=
  {| n_js := n_js0; x_js := x_js0; x_pm := None; x_IGC := None;
     IGC_force := None; force := force0; IGC_pm := IGC_pm0;
     pm_model := pm_model0; n_orlg := n_orlg0; PMModel := None;
     state_space_shape := None |}.
End ConstructorSpec.

(** An instance that has nothing but a 4-coordinate shape (the predicate reads
    no other field). *)
Definition shape_only_model : PSJSModel unit unit :=
  {| n_js := 2; x_js := []; x_pm := None; x_IGC := None;
     IGC_force := None; force := None; IGC_pm := "One rate"; pm_model := "HKY";
     n_orlg := 0; PMModel := None; state_space_shape := Some [4; 4; 4; 4] |}.

(** * Properties *)

(** ** The differing coordinates of two 4-coordinate states *)

Lemma diff_positions_4 (a0 a1 a2 a3 b0 b1 b2 b3 : Z) :
  diff_positions [a0; a1; a2; a3] [b0; b1; b2; b3] =
    (if decide (a0 = b0) then [] else [0%nat]) ++
    (if decide (a1 = b1) then [] else [1%nat]) ++
    (if decide (a2 = b2) then [] else [2%nat]) ++
    (if decide (a3 = b3) then [] else [3%nat]).
Proof.
  unfold diff_positions; simpl.
  rewrite !filter_cons, filter_nil; unfold item; simpl.
  repeat (case_decide; simplify_eq; simpl); try done.
Qed.

Lemma n_differing_4 (a0 a1 a2 a3 b0 b1 b2 b3 : Z) :
  n_differing [a0; a1; a2; a3] [b0; b1; b2; b3] =
    length (diff_positions [a0; a1; a2; a3] [b0; b1; b2; b3]).
Proof.
  rewrite diff_positions_4. unfold n_differing; simpl.
  rewrite !filter_cons, filter_nil; simpl.
  repeat (case_decide; simplify_eq; simpl); try done.
Qed.

Section Compatibility.
Context {F PM : Type} {NF : NpFloat F} {PMI : PMInterface F PM}.
Implicit Types (self : PSJSModel F PM).

(** C2. On a model whose state space has four coordinates,
    [is_transition_compatible] answers: False for a pair of equal states;
    True when exactly one coordinate differs; False when more than two
    differ; and, when exactly two differ, True exactly when the two are
    coordinates 0 and 1 and the destination carries the source's
    coordinates 2 and 3 there, or the two are coordinates 2 and 3 and the
    destination carries the source's coordinates 0 and 1 there. *)
Theorem is_transition_compatible_cases self shape
    (a0 a1 a2 a3 b0 b1 b2 b3 : Z) :
  state_space_shape self = Some shape →
  length shape = 4%nat →
  let state_from := [a0; a1; a2; a3] in
  let state_to := [b0; b1; b2; b3] in
  let d := n_differing state_from state_to in
  let answer := is_transition_compatible self (state_from, state_to) in
  (state_from = state_to → answer = Ok false)
  ∧ (d = 1%nat → answer = Ok true)
  ∧ ((2 < d)%nat → answer = Ok false)
  ∧ (d = 2%nat →
     answer = Ok (bool_decide
       ((a0 ≠ b0 ∧ a1 ≠ b1 ∧ a2 = b2 ∧ a3 = b3 ∧ b0 = a2 ∧ b1 = a3)
        ∨ (a0 = b0 ∧ a1 = b1 ∧ a2 ≠ b2 ∧ a3 ≠ b3 ∧ b2 = a0 ∧ b3 = a1)))).
Proof.
  intros Hshape Hlen state_from state_to d answer.
  subst d answer state_from state_to.
  rewrite n_differing_4.
  unfold is_transition_compatible. rewrite Hshape; simpl.
  rewrite (bool_decide_true (length shape = 4%nat)) by done; simpl.
  rewrite Hlen; simpl.
  rewrite diff_positions_4.
  destruct (decide (a0 = b0)), (decide (a1 = b1)),
    (decide (a2 = b2)), (decide (a3 = b3)); subst; simpl;
    (rewrite ?bool_decide_true by done);
    (rewrite ?(bool_decide_false (_ = _ :> list Z)) by congruence); simpl;
    unfold is_tract_copy, item; simpl;
    repeat split; intros Hd; try done; try lia; try congruence;
    repeat match goal with
           | |- context [bool_decide ?P] => destruct (bool_decide_reflect P)
           end; simpl; try done; exfalso; intuition congruence.
Qed.
End Compatibility.

(** The script's transition (0,2,2,3) -> (0,2,2,1): one coordinate differs. *)
Lemma is_transition_compatible_cases_witness :
  is_transition_compatible main_model ([0; 2; 2; 3], [0; 2; 2; 1]) = Ok true.
Proof.
  exact (proj1 (proj2 (is_transition_compatible_cases
                         main_model [4; 4; 4; 4] 0 2 2 3 0 2 2 1 eq_refl eq_refl))
           eq_refl).
Defined.

(** ** The script at the end of the source file *)

Example main_model_constructed :
  new_PSJSModel main_x_js "HKY" 3 "One rate" None 2 = Ok main_model.
Proof. reflexivity. Qed.

Example main_transition_compatible :
  is_transition_compatible main_model ([0; 2; 2; 3], [0; 2; 2; 1]) = Ok true.
Proof. reflexivity. Qed.

(** ** What a compatible transition looks like *)

Section Calculator.
Context {F PM : Type} {NF : NpFloat F} {PMI : PMInterface F PM}.
Implicit Types (self : PSJSModel F PM) (state_from state_to : state).

Lemma length_4_inv {A} (l : list A) :
  length l = 4%nat → ∃ a0 a1 a2 a3, l = [a0; a1; a2; a3].
Proof.
  destruct l as [|a0 [|a1 [|a2 [|a3 [|? ?]]]]]; simpl; try discriminate.
  intros _. by exists a0, a1, a2, a3.
Qed.

Lemma compatible_inv self state_from state_to :
  is_transition_compatible self (state_from, state_to) = Ok true →
  length state_from = 4%nat ∧ length state_to = 4%nat
  ∧ (length (diff_positions state_from state_to) = 1%nat
     ∨ length (diff_positions state_from state_to) = 2%nat
       ∧ is_tract_copy (diff_positions state_from state_to) state_from state_to = true).
Proof.
  unfold is_transition_compatible.
  destruct (state_space_shape self) as [shape|]; simpl; [|discriminate].
  destruct (bool_decide_reflect (length shape = 4%nat)) as [Hs|]; simpl; [|discriminate].
  destruct (bool_decide_reflect (length state_from = length state_to)) as [Hft|];
    simpl; [|discriminate].
  destruct (bool_decide_reflect (length state_to = length shape)) as [Hts|];
    simpl; [|discriminate].
  destruct (bool_decide (state_from = state_to)); [discriminate|].
  destruct (bool_decide (2 < length (diff_positions state_from state_to))%nat);
    [discriminate|].
  destruct (bool_decide_reflect (length (diff_positions state_from state_to) = 2%nat)).
  - destruct (is_tract_copy _ _ _) eqn:Hc; [|discriminate].
    intros _. split_and!; [congruence | congruence | by right].
  - destruct (bool_decide_reflect (length (diff_positions state_from state_to) = 1%nat));
      [|discriminate].
    intros _. split_and!; [congruence | congruence | by left].
Qed.

Lemma diff_positions_single state_from state_to pos :
  length state_from = 4%nat → length state_to = 4%nat →
  (pos < 4)%nat →
  item state_from pos ≠ item state_to pos →
  (∀ i, (i < 4)%nat → i ≠ pos → item state_from i = item state_to i) →
  diff_positions state_from state_to = [pos].
Proof.
  intros (a0 & a1 & a2 & a3 & ->)%length_4_inv (b0 & b1 & b2 & b3 & ->)%length_4_inv
    Hpos Hne Heq.
  rewrite diff_positions_4.
  pose proof (Heq 0%nat) as H0'. pose proof (Heq 1%nat) as H1'.
  pose proof (Heq 2%nat) as H2'. pose proof (Heq 3%nat) as H3'.
  unfold item in *; simpl in *.
  destruct pos as [|[|[|[|?]]]]; try lia; simpl in *;
    try specialize (H0' ltac:(lia) ltac:(lia));
    try specialize (H1' ltac:(lia) ltac:(lia));
    try specialize (H2' ltac:(lia) ltac:(lia));
    try specialize (H3' ltac:(lia) ltac:(lia));
    repeat case_decide; simpl; congruence.
Qed.

(** ** The rate of a single-coordinate transition *)

(** What the code computes when [pos_list == [pos]], for any numbers and
    either value of [proportion]. *)
Lemma cal_IGC_transition_rate_at_pos
    self state_from state_to pos n proportion pm xi xp q_mut :
  is_transition_compatible self (state_from, state_to) = Ok true →
  diff_positions state_from state_to = [pos] →
  IGC_pm self = "One rate" →
  x_IGC self = Some [xi; xp] →
  PMModel self = Some pm →
  PM_Q_mut pm (item state_from pos) (item state_to pos) = Ok q_mut →
  let igc := igc_contribution state_from state_to pos
               (IGC_0_not_n (f_exp xi) (f_exp xp) n)
               (IGC_0_and_n (f_exp xi) (f_exp xp) n) in
  cal_IGC_transition_rate self (state_from, state_to) n proportion
  = Ok (if proportion then (igc / (q_mut + igc))%npf else (q_mut + igc)%npf).
Proof.
  intros Hcompat Hdiff Hone Hx Hpm Hq igc.
  assert (pos < 4)%nat as Hpos.
  { destruct (compatible_inv _ _ _ Hcompat) as (Hlf & _ & _).
    assert (pos ∈ diff_positions state_from state_to) as Hin
      by (rewrite Hdiff; apply list_elem_of_here).
    apply list_elem_of_filter in Hin as [_ Hin].
    apply elem_of_seq in Hin. lia. }
  unfold cal_IGC_transition_rate. rewrite Hcompat; simpl.
  rewrite Hdiff, (bool_decide_true _ Hone); simpl.
  unfold exp_x_IGC; rewrite Hx; simpl.
  subst igc; unfold igc_contribution.
  destruct proportion;
    (destruct pos as [|[|[|[|?]]]]; try lia; simpl;
     rewrite Hpm; simpl; rewrite Hq; simpl;
     repeat (case_bool_decide; simpl); repeat case_decide; simpl;
     done || congruence).
Qed.

(** C1. For a compatible transition in which exactly the coordinate [pos]
    differs, [cal_IGC_transition_rate(transition, n, proportion=False)]
    returns [q_mut + igc_contribution], where [q_mut] is the collaborator's
    [Q_mut[state_from[pos], state_to[pos]]],
    [rate_tract_excludes_n = IGC_init / IGC_p * (1 - (1 - IGC_p) ** n)] and
    [rate_tract_includes_n = IGC_init / IGC_p * (1 - IGC_p) ** n] with
    [(IGC_init, IGC_p) = exp(x_IGC)], [get_other_pos] is the adjacency mapping
    0->(1,2,3), 1->(0,3,2), 2->(3,0,1), 3->(2,1,0), and the contribution is
    [rate_tract_excludes_n + rate_tract_includes_n], [rate_tract_excludes_n]
    or 0 in the three cases of the specification; so it is always one of
    these three. *)
Theorem cal_IGC_transition_rate_single
    self state_from state_to pos n pm xi xp q_mut :
  is_transition_compatible self (state_from, state_to) = Ok true →
  (pos < 4)%nat →
  item state_from pos ≠ item state_to pos →
  (∀ i, (i < 4)%nat → i ≠ pos → item state_from i = item state_to i) →
  IGC_pm self = "One rate" →
  x_IGC self = Some [xi; xp] →
  PMModel self = Some pm →
  PM_Q_mut pm (item state_from pos) (item state_to pos) = Ok q_mut →
  let IGC_init := f_exp xi in
  let IGC_p := f_exp xp in
  let rate_tract_excludes_n :=
    (IGC_init / IGC_p * (f_one - (f_one - IGC_p) ** n))%npf in
  let rate_tract_includes_n := (IGC_init / IGC_p * (f_one - IGC_p) ** n)%npf in
  ∃ same_paralog_other_site other_paralog_same_site other_paralog_other_site
    igc_contribution,
    adjacency !! pos
    = Some (same_paralog_other_site, other_paralog_same_site, other_paralog_other_site)
    ∧ get_other_pos pos
      = Ok (same_paralog_other_site, other_paralog_same_site, other_paralog_other_site)
    ∧ cal_IGC_transition_rate self (state_from, state_to) n false
      = Ok (q_mut + igc_contribution)%npf
    ∧ (item state_to pos = item state_from other_paralog_same_site →
       item state_from same_paralog_other_site
       = item state_from other_paralog_other_site →
       igc_contribution = (rate_tract_excludes_n + rate_tract_includes_n)%npf)
    ∧ (item state_to pos = item state_from other_paralog_same_site →
       item state_from same_paralog_other_site
       ≠ item state_from other_paralog_other_site →
       igc_contribution = rate_tract_excludes_n)
    ∧ (item state_to pos ≠ item state_from other_paralog_same_site →
       igc_contribution = f_zero)
    ∧ (igc_contribution = f_zero ∨ igc_contribution = rate_tract_excludes_n
       ∨ igc_contribution = (rate_tract_excludes_n + rate_tract_includes_n)%npf).
Proof.
  intros Hcompat Hpos Hne Heq Hone Hx Hpm Hq IGC_init IGC_p
    rate_tract_excludes_n rate_tract_includes_n.
  destruct (compatible_inv _ _ _ Hcompat) as (Hlf & Hlt & _).
  pose proof (diff_positions_single _ _ _ Hlf Hlt Hpos Hne Heq) as Hdiff.
  pose proof (cal_IGC_transition_rate_at_pos _ _ _ _ n false _ _ _ _
                Hcompat Hdiff Hone Hx Hpm Hq) as Hcal.
  cbv zeta in Hcal. unfold IGC_0_not_n, IGC_0_and_n in Hcal.
  fold IGC_init IGC_p in Hcal. fold rate_tract_excludes_n rate_tract_includes_n in Hcal.
  unfold igc_contribution in Hcal.
  destruct pos as [|[|[|[|?]]]]; try lia; simpl in Hcal;
    eexists _, _, _, _;
    (split; [reflexivity|]); (split; [reflexivity|]); (split; [exact Hcal|]);
    repeat case_decide; split_and!; intros; try done; auto.
Qed.

(** ** Compatible transitions reach a normal return *)

Lemma compatible_cases self state_from state_to :
  is_transition_compatible self (state_from, state_to) = Ok true →
  let pos_list := diff_positions state_from state_to in
  length pos_list = 1%nat
  ∨ length pos_list = 2%nat ∧ is_tract_copy pos_list state_from state_to = true.
Proof. intros Hcompat. by destruct (compatible_inv _ _ _ Hcompat) as (_ & _ & ?). Qed.

Lemma cal_IGC_transition_rate_total self state_from state_to n proportion :
  is_transition_compatible self (state_from, state_to) = Ok true →
  IGC_pm self = "One rate" →
  (∃ xi xp, x_IGC self = Some [xi; xp]) →
  (∃ pm, PMModel self = Some pm
         ∧ ∀ i, (i < 4)%nat →
                ∃ q, PM_Q_mut pm (item state_from i) (item state_to i) = Ok q) →
  ∃ rate, cal_IGC_transition_rate self (state_from, state_to) n proportion = Ok rate.
Proof.
  intros Hcompat Hone (xi & xp & Hx) (pm & Hpm & Hq).
  pose proof (compatible_cases _ _ _ Hcompat) as Hcases. cbv zeta in Hcases.
  unfold cal_IGC_transition_rate. rewrite Hcompat; simpl.
  rewrite (bool_decide_true _ Hone); simpl.
  unfold exp_x_IGC; rewrite Hx; simpl.
  remember (diff_positions state_from state_to) as pl eqn:Hpl.
  destruct Hcases as [Hsingle | [Hdouble Hcopy]].
  - rewrite (bool_decide_true _ Hsingle); simpl.
    destruct pl as [|pos [|? ?]]; try discriminate; simpl.
    assert (pos < 4)%nat as Hlt4.
    { destruct (compatible_inv _ _ _ Hcompat) as (Hlf & _ & _).
      assert (pos ∈ diff_positions state_from state_to) as Hin
        by (rewrite <- Hpl; apply list_elem_of_here).
      apply list_elem_of_filter in Hin as [_ Hin].
      apply elem_of_seq in Hin. lia. }
    destruct (Hq _ Hlt4) as [q Hqv].
    destruct pos as [|[|[|[|?]]]]; try lia; simpl;
      rewrite Hpm; simpl; rewrite Hqv; simpl;
      repeat (case_bool_decide; simpl); destruct proportion; eauto.
  - rewrite (bool_decide_false (length pl = 1%nat)) by lia.
    rewrite (bool_decide_true _ Hdouble), Hcopy; simpl.
    destruct proportion; eauto.
Qed.

(** C8. When [is_transition_compatible] holds of the transition (what
    [cal_IGC_transition_rate] asserts on entry), the guards of the two
    [sys.exit] branches for an excluded difference pattern are false: the
    differing coordinates are one, or two that form a tract copy.  On an
    instance whose IGC parameterization is "One rate", whose IGC slice has two
    entries and whose collaborator answers the table lookups, the call
    returns a value. *)
Theorem cal_IGC_transition_rate_returns self state_from state_to n proportion :
  is_transition_compatible self (state_from, state_to) = Ok true →
  let pos_list := diff_positions state_from state_to in
  (length pos_list = 1%nat
   ∨ length pos_list = 2%nat ∧ is_tract_copy pos_list state_from state_to = true)
  ∧ (IGC_pm self = "One rate" →
     (∃ xi xp, x_IGC self = Some [xi; xp]) →
     (∃ pm, PMModel self = Some pm
            ∧ ∀ i, (i < 4)%nat →
                   ∃ q, PM_Q_mut pm (item state_from i) (item state_to i) = Ok q) →
     ∃ rate, cal_IGC_transition_rate self (state_from, state_to) n proportion = Ok rate).
Proof.
  intros Hcompat pos_list. split.
  - exact (compatible_cases self _ _ Hcompat).
  - by apply cal_IGC_transition_rate_total.
Qed.
End Calculator.

(** On the script's instance at separation 50: in the script's transition
    coordinate 3 changes to a value the other paralog does not have there, so
    the rate is the collaborator's 1/4 plus 0; in (0,1,1,1) -> (1,1,1,1)
    coordinate 0 is copied from the other paralog and the paralogs agree at
    the other site, so the rate is 1/4 plus both tract rates. *)
Lemma cal_IGC_transition_rate_single_witness :
  let IGC_init : option R := Some (exp (ln (3 / 10))) in
  let IGC_p : option R := Some (exp (ln (1 / 30))) in
  cal_IGC_transition_rate main_model ([0; 2; 2; 3], [0; 2; 2; 1]) 50 false
  = Ok (Some (1 / 4)%R + f_zero)%npf
  ∧ cal_IGC_transition_rate main_model ([0; 1; 1; 1], [1; 1; 1; 1]) 50 false
    = Ok (Some (1 / 4)%R
          + (IGC_init / IGC_p * (f_one - (f_one - IGC_p) ** 50)
             + IGC_init / IGC_p * (f_one - IGC_p) ** 50))%npf.
Proof.
  intros IGC_init IGC_p. split.
  - destruct (cal_IGC_transition_rate_single (PMI := sample_PMInterface)
                main_model [0; 2; 2; 3] [0; 2; 2; 1]
                3%nat 50 (mk_sample_PM "HKY" (take 4 main_x_js) None)
                (Some (ln (3 / 10))) (Some (ln (1 / 30))) (Some (1 / 4)%R)
                eq_refl ltac:(lia) ltac:(unfold item; simpl; lia)
                ltac:(intros [|[|[|[|?]]]] ? ?; (reflexivity || lia))
                eq_refl eq_refl eq_refl eq_refl)
      as (a & b & c & igc & Hadj & _ & Hcal & _ & _ & Hzero & _).
    injection Hadj as <- <- <-.
    rewrite Hzero in Hcal by (unfold item; simpl; lia). exact Hcal.
  - destruct (cal_IGC_transition_rate_single (PMI := sample_PMInterface)
                main_model [0; 1; 1; 1] [1; 1; 1; 1]
                0%nat 50 (mk_sample_PM "HKY" (take 4 main_x_js) None)
                (Some (ln (3 / 10))) (Some (ln (1 / 30))) (Some (1 / 4)%R)
                eq_refl ltac:(lia) ltac:(unfold item; simpl; lia)
                ltac:(intros [|[|[|[|?]]]] ? ?; (reflexivity || lia))
                eq_refl eq_refl eq_refl eq_refl)
      as (a & b & c & igc & Hadj & _ & Hcal & Hboth & _).
    injection Hadj as <- <- <-.
    rewrite Hboth in Hcal by reflexivity. exact Hcal.
Defined.

(** The script's transition on the script's instance returns a value. *)
Lemma cal_IGC_transition_rate_returns_witness :
  ∃ rate : option R,
    cal_IGC_transition_rate main_model ([0; 2; 2; 3], [0; 2; 2; 1]) 50 true = Ok rate.
Proof.
  refine (proj2 (cal_IGC_transition_rate_returns main_model [0; 2; 2; 3] [0; 2; 2; 1]
                   50 true eq_refl) eq_refl _ _).
  - by eexists _, _.
  - eexists; split; [reflexivity|].
    intros [|[|[|[|?]]]] ?; try lia; eexists; reflexivity.
Defined.

(** ** Arithmetic of the real interpretation *)

Lemma real_add_0_l (x : option R) : (f_zero + x)%npf = x.
Proof. destruct x as [r|]; simpl; [f_equal; lra | done]. Qed.

Lemma real_div_Some (x y : R) :
  y ≠ 0%R → real_div (Some x) (Some y) = Some (x / y)%R.
Proof. intros Hy. unfold real_div. by rewrite decide_False. Qed.

Lemma real_div_0 (x : R) : real_div (Some x) (Some 0%R) = None.
Proof. unfold real_div. by rewrite decide_True. Qed.

Lemma real_div_self (x : R) : x ≠ 0%R → real_div (Some x) (Some x) = Some 1%R.
Proof. intros Hx. rewrite real_div_Some by done. f_equal. by field. Qed.

Lemma real_pow_Some (x : R) (n : Z) :
  x ≠ 0%R ∨ 0 ≤ n → real_pow (Some x) n = Some (powerRZ x n).
Proof.
  intros Hxn. unfold real_pow. rewrite decide_False; [done|].
  intros [Hx Hn]. destruct Hxn; [done | lia].
Qed.

Lemma powerRZ_unit_interval (b : R) (n : Z) :
  (0 <= b <= 1)%R → 0 ≤ n → (0 <= powerRZ b n <= 1)%R.
Proof.
  intros Hb Hn. rewrite <- (Z2Nat.id n) by done. rewrite <- pow_powerRZ.
  split; [apply pow_le; lra|].
  rewrite <- (pow1 (Z.to_nat n)). apply pow_incr; lra.
Qed.

(** The two tract rates for finite parameters, over the reals. *)
Lemma IGC_0_and_n_real (xi xp : R) (n : Z) :
  xp ≠ 0%R ∨ 0 ≤ n →
  IGC_0_and_n (Some (exp xi)) (Some (exp xp)) n
  = Some (exp xi / exp xp * powerRZ (1 - exp xp) n)%R.
Proof.
  intros Hn. unfold IGC_0_and_n; simpl.
  pose proof (exp_pos xp) as Hp.
  rewrite real_div_Some by lra. rewrite real_pow_Some; [done|].
  destruct Hn as [Hxp|Hn]; [left | by right].
  intros Heq. apply Hxp. apply exp_inv. rewrite exp_0. lra.
Qed.

Lemma IGC_0_not_n_real (xi xp : R) (n : Z) :
  xp ≠ 0%R ∨ 0 ≤ n →
  IGC_0_not_n (Some (exp xi)) (Some (exp xp)) n
  = Some (exp xi / exp xp * (1 - powerRZ (1 - exp xp) n))%R.
Proof.
  intros Hn. unfold IGC_0_not_n; simpl.
  pose proof (exp_pos xp) as Hp.
  rewrite real_div_Some by lra. rewrite real_pow_Some; [done|].
  destruct Hn as [Hxp|Hn]; [left | by right].
  intros Heq. apply Hxp. apply exp_inv. rewrite exp_0. lra.
Qed.

(** The exact interpretation obeys the laws. *)
#[global] Instance real_Float64Laws : Float64Laws (option R).
Proof.
  split; unfold f_value, real_value.
  - reflexivity.
  - intros [x|]; simpl; [f_equal; lra | done].
  - intros [x|] [y|] a b; simpl; try discriminate.
    intros [= ->] [= ->] Ha Hb. right. exists (a + b)%R. split; [done | lra].
  - intros x [y|] a; discriminate.
  - intros [x|] [y|] r; simpl; try discriminate.
    intros [= ->] [= ->] Hr. change (Some r / Some r)%npf with (real_div (Some r) (Some r)).
    by rewrite real_div_self.
  - intros [x|] [y|]; simpl; try discriminate.
    intros [= ->] [= ->]. change (Some 0 / Some 0)%npf with (real_div (Some 0%R) (Some 0%R)).
    by rewrite real_div_0.
  - intros [x|] y Hx _; [by destruct (Hx x)|]. reflexivity.
  - intros [x|] [y|] a b; simpl; try discriminate.
    intros [= ->] [= ->] Hab Hb.
    change (Some a / Some b)%npf with (real_div (Some a) (Some b)).
    rewrite real_div_Some by lra. exists (a / b)%R. split; [done|].
    replace (a / b)%R with (a / (0 + b))%R by (f_equal; lra).
    replace a with (a - 0)%R at 1 by lra.
    split.
    + apply Rmult_le_pos; [lra|]. left. apply Rinv_0_lt_compat. lra.
    + apply (Rmult_le_reg_r b); [done|]. unfold Rdiv.
      rewrite Rmult_assoc, Rplus_0_l, Rinv_l by lra. lra.
  - intros x [y|] a; discriminate.
Qed.

Example model_with_x_IGC_constructed (a b : R) :
  new_PSJSModel (take 4 main_x_js ++ [Some a; Some b]) "HKY" 3 "One rate" None 2
  = Ok (model_with_x_IGC a b).
Proof. reflexivity. Qed.

(** ** The rate of a two-coordinate transition *)

Section TwoCoordinates.
Context {F PM : Type} {NF : NpFloat F} {PMI : PMInterface F PM}.
Implicit Types (self : PSJSModel F PM) (state_from state_to : state).

Lemma n_differing_length state_from state_to :
  length state_from = 4%nat → length state_to = 4%nat →
  n_differing state_from state_to = length (diff_positions state_from state_to).
Proof.
  intros (a0 & a1 & a2 & a3 & ->)%length_4_inv (b0 & b1 & b2 & b3 & ->)%length_4_inv.
  apply n_differing_4.
Qed.

(** What the code computes for a whole-tract copy, for any numbers. *)
Lemma cal_IGC_transition_rate_double self state_from state_to n proportion xi xp :
  is_transition_compatible self (state_from, state_to) = Ok true →
  n_differing state_from state_to = 2%nat →
  IGC_pm self = "One rate" →
  x_IGC self = Some [xi; xp] →
  let includes_n := IGC_0_and_n (f_exp xi) (f_exp xp) n in
  cal_IGC_transition_rate self (state_from, state_to) n proportion
  = Ok (if proportion then (includes_n / (f_zero + includes_n))%npf
        else (f_zero + includes_n)%npf).
Proof.
  intros Hcompat Hd Hone Hx includes_n.
  destruct (compatible_inv _ _ _ Hcompat) as (Hlf & Hlt & Hcases).
  rewrite n_differing_length in Hd by done.
  destruct Hcases as [Hsingle | [_ Hcopy]]; [congruence|].
  unfold cal_IGC_transition_rate. rewrite Hcompat; simpl.
  rewrite (bool_decide_true _ Hone); simpl.
  unfold exp_x_IGC; rewrite Hx; simpl.
  rewrite (bool_decide_false (_ = 1%nat)) by lia.
  rewrite (bool_decide_true _ Hd), Hcopy; simpl.
  by destruct proportion.
Qed.
End TwoCoordinates.

Section TractCopy.
Context {F PM : Type} {NF : NpFloat F} {PMI : PMInterface F PM}
  {FV : FloatValue F} {FL : Float64Laws F}.
Implicit Types (self : PSJSModel F PM) (state_from state_to : state).

(** C3, as the code has it.  For a compatible transition in which exactly
    two coordinates differ, [proportion=False] gives
    [0.0 + rate_tract_includes_n], a float of exactly the value of
    [rate_tract_includes_n = IGC_init / IGC_p * (1 - IGC_p) ** n] (the
    point-mutation term is 0.0), and [proportion=True] gives the float
    quotient [rate_tract_includes_n / (0.0 + rate_tract_includes_n)]: 1.0
    when [rate_tract_includes_n] is a finite number other than 0, and nan
    when it is 0, an infinity or nan. *)
Theorem cal_IGC_transition_rate_tract_copy self state_from state_to n xi xp :
  is_transition_compatible self (state_from, state_to) = Ok true →
  n_differing state_from state_to = 2%nat →
  IGC_pm self = "One rate" →
  x_IGC self = Some [xi; xp] →
  let IGC_init := f_exp xi in
  let IGC_p := f_exp xp in
  let rate_tract_includes_n := (IGC_init / IGC_p * (f_one - IGC_p) ** n)%npf in
  ∃ rate proportion,
    cal_IGC_transition_rate self (state_from, state_to) n false = Ok rate
    ∧ cal_IGC_transition_rate self (state_from, state_to) n true = Ok proportion
    ∧ rate = (f_zero + rate_tract_includes_n)%npf
    ∧ f_value rate = f_value rate_tract_includes_n
    ∧ proportion = (rate_tract_includes_n / rate)%npf
    ∧ (∀ r, f_value rate_tract_includes_n = Finite r → r ≠ 0%R →
         f_value proportion = Finite 1)
    ∧ (f_value rate_tract_includes_n = Finite 0 → f_value proportion = NaN)
    ∧ ((∀ r, f_value rate_tract_includes_n ≠ Finite r) → f_value proportion = NaN).
Proof.
  intros Hcompat Hd Hone Hx IGC_init IGC_p rate_tract_includes_n.
  pose proof (λ p, cal_IGC_transition_rate_double
                     self state_from state_to n p _ _ Hcompat Hd Hone Hx) as Hcal.
  cbv zeta in Hcal. unfold IGC_0_and_n in Hcal.
  fold IGC_init IGC_p in Hcal. fold rate_tract_includes_n in Hcal.
  exists (f_zero + rate_tract_includes_n)%npf,
    (rate_tract_includes_n / (f_zero + rate_tract_includes_n))%npf.
  pose proof (add_zero_l rate_tract_includes_n) as Hsame.
  split; [exact (Hcal false)|]. split; [exact (Hcal true)|].
  do 3 (split; [done|]). split; [|split].
  - intros r Hr Hne. apply (div_same _ _ r); [done | by rewrite Hsame | done].
  - intros Hr. apply div_zero_zero; [done | by rewrite Hsame].
  - intros Hr. by apply div_not_finite.
Qed.
End TractCopy.

(** On the script's instance ([IGC_p = 1/30]) the whole-tract copy
    (0,0,1,1) -> (1,1,1,1) at separation 50 has a finite rate other than 0,
    and proportion 1. *)
Lemma cal_IGC_transition_rate_tract_copy_witness :
  ∃ proportion,
    cal_IGC_transition_rate main_model ([0; 0; 1; 1], [1; 1; 1; 1]) 50 true
    = Ok proportion
    ∧ f_value proportion = Finite 1.
Proof.
  destruct (cal_IGC_transition_rate_tract_copy (PMI := sample_PMInterface)
              main_model [0; 0; 1; 1] [1; 1; 1; 1] 50
              (Some (ln (3 / 10))) (Some (ln (1 / 30)))
              eq_refl eq_refl eq_refl eq_refl)
    as (rate & proportion & _ & Hp & _ & _ & _ & Hone & _).
  exists proportion. split; [exact Hp|].
  apply (Hone (exp (ln (3 / 10)) / exp (ln (1 / 30))
               * powerRZ (1 - exp (ln (1 / 30))) 50)%R).
  - change (f_value (IGC_0_and_n (Some (exp (ln (3 / 10)))) (Some (exp (ln (1 / 30)))) 50)
            = Finite (exp (ln (3 / 10)) / exp (ln (1 / 30))
                      * powerRZ (1 - exp (ln (1 / 30))) 50)).
    rewrite IGC_0_and_n_real by (right; lia). reflexivity.
  - rewrite !exp_ln by lra.
    apply Rmult_integral_contrapositive_currified; [lra|].
    apply powerRZ_NOR. lra.
Defined.

(** C3 fails as stated when [IGC_p = 1] (the IGC slice ends in [log(1) = 0.0]):
    the tract rate is [0.3 / 1.0 * 0.0 ** 1 = 0.0] and the proportion is
    [0.0 / (0.0 + 0.0)], which is no number, and not 1.0. *)
Lemma tract_copy_proportion_not_one :
  let self := model_with_x_IGC (ln (3 / 10)) 0 in
  let t := ([0; 0; 1; 1], [1; 1; 1; 1]) in
  is_transition_compatible self t = Ok true
  ∧ n_differing t.1 t.2 = 2%nat
  ∧ cal_IGC_transition_rate self t 1 false = Ok (Some 0%R)
  ∧ cal_IGC_transition_rate self t 1 true = Ok None
  ∧ cal_IGC_transition_rate self t 1 true ≠ Ok (Some 1%R).
Proof.
  intros self t. subst t.
  assert (IGC_0_and_n (Some (exp (ln (3 / 10)))) (Some (exp 0)) 1 = Some 0%R) as Hrate.
  { unfold IGC_0_and_n; simpl. rewrite exp_0.
    rewrite real_div_Some by lra. rewrite real_pow_Some by (right; lia).
    simpl. f_equal. lra. }
  pose proof (λ p, cal_IGC_transition_rate_double
                     self [0; 0; 1; 1] [1; 1; 1; 1] 1 p _ _ eq_refl eq_refl eq_refl eq_refl) as Hcal.
  cbv zeta in Hcal.
  change (f_exp (Some (ln (3 / 10))%R)) with (Some (exp (ln (3 / 10)))) in Hcal.
  change (f_exp (Some 0%R)) with (Some (exp 0)) in Hcal.
  rewrite Hrate in Hcal.
  assert (cal_IGC_transition_rate self ([0; 0; 1; 1], [1; 1; 1; 1]) 1 true = Ok None)
    as Hnan.
  { etrans; [apply (Hcal true)|]. rewrite real_add_0_l. simpl. by rewrite real_div_0. }
  split_and!; [done | done | | done | by rewrite Hnan].
  etrans; [apply (Hcal false)|]. by rewrite real_add_0_l.
Qed.

(** ** The proportion attributed to IGC *)

Lemma tract_rates_nonneg (xi xp : R) (n : Z) :
  (xp <= 0)%R → 0 ≤ n →
  ∃ e i, IGC_0_not_n (Some (exp xi)) (Some (exp xp)) n = Some e
         ∧ IGC_0_and_n (Some (exp xi)) (Some (exp xp)) n = Some i
         ∧ (0 <= e)%R ∧ (0 <= i)%R.
Proof.
  intros Hxp Hn.
  rewrite IGC_0_not_n_real, IGC_0_and_n_real by (by right).
  eexists _, _. split_and!; [reflexivity | reflexivity | |].
  all: pose proof (exp_pos xi); pose proof (exp_pos xp).
  all: assert (exp xp <= 1)%R as Hp1
         by (rewrite <- exp_0; destruct Hxp as [Hlt | ->];
             [left; by apply exp_increasing | right; reflexivity]).
  all: assert (0 < exp xi / exp xp)%R by (by apply Rdiv_lt_0_compat).
  all: destruct (powerRZ_unit_interval (1 - exp xp) n) as [Hlo Hhi]; [lra | done |].
  all: apply Rmult_le_pos; lra.
Qed.

Section Proportion.
Context {F PM : Type} {NF : NpFloat F} {PMI : PMInterface F PM}
  {FV : FloatValue F} {FL : Float64Laws F}.
Implicit Types (self : PSJSModel F PM) (state_from state_to : state).

(** C6, as the code has it.  For a compatible transition the value with
    [proportion=True] is a finite number in [[0, 1]] provided that the total
    rate (the value with [proportion=False]) is not zero and that, when one
    coordinate differs, the collaborator's rate and the IGC contribution are
    nonnegative finite numbers, and when two coordinates differ,
    [rate_tract_includes_n] is a finite number. *)
Theorem proportion_in_unit_interval self state_from state_to n pm xi xp :
  is_transition_compatible self (state_from, state_to) = Ok true →
  IGC_pm self = "One rate" →
  x_IGC self = Some [xi; xp] →
  PMModel self = Some pm →
  let IGC_init := f_exp xi in
  let IGC_p := f_exp xp in
  let rate_tract_excludes_n :=
    (IGC_init / IGC_p * (f_one - (f_one - IGC_p) ** n))%npf in
  let rate_tract_includes_n := (IGC_init / IGC_p * (f_one - IGC_p) ** n)%npf in
  match diff_positions state_from state_to with
  | [pos] =>
    ∃ q_mut q g,
      PM_Q_mut pm (item state_from pos) (item state_to pos) = Ok q_mut
      ∧ f_value q_mut = Finite q ∧ (0 <= q)%R
      ∧ f_value (igc_contribution state_from state_to pos
                   rate_tract_excludes_n rate_tract_includes_n) = Finite g
      ∧ (0 <= g)%R
  | _ => ∃ g, f_value rate_tract_includes_n = Finite g
  end →
  (∀ total, cal_IGC_transition_rate self (state_from, state_to) n false = Ok total →
            f_value total ≠ Finite 0) →
  ∃ proportion c,
    cal_IGC_transition_rate self (state_from, state_to) n true = Ok proportion
    ∧ f_value proportion = Finite c ∧ (0 <= c <= 1)%R.
Proof.
  intros Hcompat Hone Hx Hpm IGC_init IGC_p rate_tract_excludes_n
    rate_tract_includes_n Hterms Htotal.
  destruct (compatible_inv _ _ _ Hcompat) as (Hlf & Hlt & Hcases).
  destruct Hcases as [Hsingle | [Hdouble _]].
  - destruct (diff_positions state_from state_to) as [|pos [|? ?]] eqn:Hdiff;
      try discriminate.
    destruct Hterms as (q_mut & q & g & Hqv & Hq & Hq0 & Hg & Hg0).
    pose proof (λ p, cal_IGC_transition_rate_at_pos self state_from state_to pos n p
                       _ _ _ _ Hcompat Hdiff Hone Hx Hpm Hqv) as Hcal.
    cbv zeta in Hcal. unfold IGC_0_not_n, IGC_0_and_n in Hcal.
    fold IGC_init IGC_p in Hcal.
    fold rate_tract_excludes_n rate_tract_includes_n in Hcal.
    set (igc := igc_contribution state_from state_to pos
                  rate_tract_excludes_n rate_tract_includes_n) in *.
    specialize (Htotal _ (Hcal false)).
    eexists. rewrite (Hcal true).
    destruct (add_nonneg q_mut igc q g Hq Hg Hq0 Hg0) as [Hinf | (s & Hs & Hqs & Hgs)].
    + exists 0%R. split; [reflexivity|]. split; [|lra].
      by apply (div_by_inf _ _ g).
    + assert (s ≠ 0)%R as Hs0 by (intros ->; by apply Htotal).
      destruct (div_le igc (q_mut + igc)%npf g s Hg Hs) as (c & Hc & Hc01); [lra..|].
      by exists c.
  - destruct (diff_positions state_from state_to) as [|p1 [|p2 [|? ?]]] eqn:Hdiff;
      try discriminate.
    destruct Hterms as (g & Hg).
    assert (n_differing state_from state_to = 2%nat) as Hd
      by (rewrite n_differing_length by done; by rewrite Hdiff).
    pose proof (λ p, cal_IGC_transition_rate_double self state_from state_to n p
                       _ _ Hcompat Hd Hone Hx) as Hcal.
    cbv zeta in Hcal. unfold IGC_0_and_n in Hcal.
    fold IGC_init IGC_p in Hcal. fold rate_tract_includes_n in Hcal.
    specialize (Htotal _ (Hcal false)).
    pose proof (add_zero_l rate_tract_includes_n) as Hsame.
    rewrite Hg in Hsame.
    assert (g ≠ 0)%R as Hg0 by (intros ->; by apply Htotal).
    eexists. rewrite (Hcal true). exists 1%R.
    split; [reflexivity|]. split; [|lra].
    by apply (div_same _ _ g).
Qed.
End Proportion.

(** On the script's instance at separation 50, the single-site conversion
    (0,1,1,1) -> (1,1,1,1): the collaborator's rate is 1/4, the IGC
    contribution is the sum of both tract rates, and the proportion is in
    [[0, 1]]. *)
Lemma proportion_in_unit_interval_witness :
  ∃ proportion c,
    cal_IGC_transition_rate main_model ([0; 1; 1; 1], [1; 1; 1; 1]) 50 true
    = Ok proportion
    ∧ f_value proportion = Finite c ∧ (0 <= c <= 1)%R.
Proof.
  assert (ln (1 / 30) <= 0)%R as Hxp
    by (rewrite <- ln_1; left; apply ln_increasing; lra).
  destruct (tract_rates_nonneg (ln (3 / 10)) (ln (1 / 30)) 50 Hxp ltac:(lia))
    as (e & i & He & Hi & He0 & Hi0).
  unfold IGC_0_not_n in He. unfold IGC_0_and_n in Hi.
  assert (sample_Q_mut (mk_sample_PM "HKY" (take 4 main_x_js) None) 0 1
          = Ok (Some (1 / 4)%R)) as Hq by reflexivity.
  refine (proportion_in_unit_interval (PMI := sample_PMInterface)
            main_model [0; 1; 1; 1] [1; 1; 1; 1] 50
            (mk_sample_PM "HKY" (take 4 main_x_js) None)
            (Some (ln (3 / 10))) (Some (ln (1 / 30)))
            eq_refl eq_refl eq_refl eq_refl _ _).
  - change (∃ q_mut q g,
              sample_Q_mut (mk_sample_PM "HKY" (take 4 main_x_js) None) 0 1 = Ok q_mut
              ∧ f_value q_mut = Finite q ∧ (0 <= q)%R
              ∧ f_value
                  (Some (exp (ln (3 / 10))) / Some (exp (ln (1 / 30)))
                   * (f_one - (f_one - Some (exp (ln (1 / 30)))) ** 50)
                   + Some (exp (ln (3 / 10))) / Some (exp (ln (1 / 30)))
                     * (f_one - Some (exp (ln (1 / 30)))) ** 50)%npf = Finite g
              ∧ (0 <= g)%R).
    rewrite He, Hi.
    exists (Some (1 / 4)%R), (1 / 4)%R, (e + i)%R.
    split_and!; [exact Hq | reflexivity | lra | reflexivity | lra].
  - intros total.
    rewrite (cal_IGC_transition_rate_at_pos (PMI := sample_PMInterface) main_model
               [0; 1; 1; 1] [1; 1; 1; 1] 0%nat 50 false _ _ _ _
               eq_refl eq_refl eq_refl eq_refl eq_refl Hq).
    cbv zeta.
    change (igc_contribution [0; 1; 1; 1] [1; 1; 1; 1] 0
              (IGC_0_not_n (f_exp (Some (ln (3 / 10))%R)) (f_exp (Some (ln (1 / 30))%R)) 50)
              (IGC_0_and_n (f_exp (Some (ln (3 / 10))%R)) (f_exp (Some (ln (1 / 30))%R)) 50))
      with (Some (exp (ln (3 / 10))) / Some (exp (ln (1 / 30)))
            * (f_one - (f_one - Some (exp (ln (1 / 30)))) ** 50)
            + Some (exp (ln (3 / 10))) / Some (exp (ln (1 / 30)))
              * (f_one - Some (exp (ln (1 / 30)))) ** 50)%npf.
    rewrite He, Hi. intros [= <-]. intros [= Hz]. lra.
Defined.

(** C6 fails as stated.  Within the range of a probability, at
    [IGC_p = 1] (the IGC slice [[0.0, 0.0]]) and [n = 2], the whole-tract copy
    (2,3,0,1) -> (2,3,2,3) has the rate [1.0 / 1.0 * 0.0 ** 2 = 0.0] and the
    proportion [0.0 / (0.0 + 0.0)], which is nan and no number of [[0, 1]].
    And the code does not restrict [IGC_p]: with the IGC slice
    [log([0.3, 3])] and [n = 2] the tract rate that excludes the other site is
    [0.3 / 3 * (1 - (1 - 3) ** 2) = -0.3], and the single-coordinate
    transition (0,0,1,1) -> (1,0,1,1) with point-mutation rate 1/4 gets the
    proportion [-0.3 / (0.25 - 0.3)], which is above 1. *)
Lemma proportion_outside_unit_interval :
  (let self := model_with_x_IGC 0 0 in
   let t := ([2; 3; 0; 1], [2; 3; 2; 3]) in
   is_transition_compatible self t = Ok true
   ∧ 1 ≤ 2
   ∧ ∃ proportion,
       cal_IGC_transition_rate self t 2 true = Ok proportion
       ∧ f_value proportion = NaN)
  ∧ (let self := model_with_x_IGC (ln (3 / 10)) (ln 3) in
     let t := ([0; 0; 1; 1], [1; 0; 1; 1]) in
     is_transition_compatible self t = Ok true
     ∧ 1 ≤ 2
     ∧ ∃ proportion c,
         cal_IGC_transition_rate self t 2 true = Ok proportion
         ∧ f_value proportion = Finite c ∧ (1 < c)%R).
Proof.
  split.
  - intros self t. subst t. split_and!; [done | lia |].
    assert (IGC_0_and_n (Some (exp 0)) (Some (exp 0)) 2 = Some 0%R) as Hrate.
    { unfold IGC_0_and_n; simpl. rewrite exp_0.
      rewrite real_div_Some by lra. rewrite real_pow_Some by (right; lia).
      simpl. f_equal. lra. }
    pose proof (cal_IGC_transition_rate_double self [2; 3; 0; 1] [2; 3; 2; 3] 2 true
                  _ _ eq_refl eq_refl eq_refl eq_refl) as Hcal.
    cbv zeta in Hcal.
    change (f_exp (Some 0%R)) with (Some (exp 0)) in Hcal.
    rewrite Hrate in Hcal.
    exists None. split; [|reflexivity].
    etrans; [exact Hcal|]. rewrite real_add_0_l. simpl. by rewrite real_div_0.
  - intros self t. subst t. split_and!; [done | lia |].
    assert (sample_Q_mut (mk_sample_PM "HKY" (take 4 main_x_js) None) 0 1
            = Ok (Some (1 / 4)%R)) as Hq by reflexivity.
    exists (Some 6%R), 6%R. split_and!; [| reflexivity | lra].
    etrans.
    { exact (cal_IGC_transition_rate_at_pos (PMI := sample_PMInterface) self
               [0; 0; 1; 1] [1; 0; 1; 1]
               0%nat 2 true _ _ _ _ eq_refl eq_refl eq_refl eq_refl eq_refl Hq). }
    cbv zeta. f_equal.
    change (f_exp (Some (ln (3 / 10))%R)) with (Some (exp (ln (3 / 10)))).
    change (f_exp (Some (ln 3)%R)) with (Some (exp (ln 3))).
    rewrite IGC_0_not_n_real by (right; lia).
    rewrite !exp_ln by lra.
    unfold igc_contribution; simpl.
    rewrite real_div_Some by lra.
    f_equal. field.
Qed.

(** ** The parameter partitioner *)

Section Partitioner.
Context {F PM : Type} {NF : NpFloat F} {PMI : PMInterface F PM}.
Implicit Types (self : PSJSModel F PM) (x : list F).

(** [unpack_x_js] unfolded: the checks in the order of the source, then the
    three assignments, then the assertion on the length. *)
Lemma unpack_x_js_unfold self x :
  unpack_x_js x self =
    if negb (bool_decide (pm_model self ∈ PMModel_supported))
    then (Raise AssertionError, self)
    else if negb (bool_decide (IGC_pm self ∈ supported))
    then (Raise AssertionError, self)
    else if negb (bool_decide (pm_model self = "HKY"))
    then (Raise (SystemExit "The point mutation model is not supported."), self)
    else if negb (bool_decide (IGC_pm self = "One rate"))
    then (Raise (SystemExit "The IGC parameterization has not been implemented."), self)
    else (py_assert (bool_decide (6%nat = length x)),
          set_x_js x (set_x_IGC (Some (drop 4 x)) (set_x_pm (Some (take 4 x)) self))).
Proof.
  unfold unpack_x_js, mbind, M_bind, get_self, lift, assign; simpl.
  repeat (case_bool_decide; simpl; try reflexivity).
Qed.

(** C5. [unpack_x_js] is a function of the instance and the vector.  With
    point-mutation model "HKY" and IGC model "One rate" and a vector of
    length 4 + 2 it succeeds and stores the first 4 entries as [x_pm], the
    remaining 2 as [x_IGC] and the vector as [x_js]; it fails with a
    configuration error when a submodel name is not supported or the length
    is not 6; and whenever it succeeds the stored slices have sizes 4 and 2
    and concatenate back to the stored vector. *)
Theorem unpack_x_js_partition self x :
  let out := unpack_x_js x self in
  (pm_model self ∈ PMModel_supported → pm_model self = "HKY" →
   IGC_pm self = "One rate" → length x = 6%nat →
   out.1 = Ok tt
   ∧ x_pm out.2 = Some (take 4 x) ∧ x_IGC out.2 = Some (drop 4 x) ∧ x_js out.2 = x)
  ∧ (pm_model self ∉ PMModel_supported ∨ pm_model self ≠ "HKY"
     ∨ IGC_pm self ∉ supported ∨ length x ≠ 6%nat →
     ∃ e, out.1 = Raise e ∧ configuration_error e)
  ∧ (out.1 = Ok tt →
     ∃ pm igc, x_pm out.2 = Some pm ∧ x_IGC out.2 = Some igc
               ∧ length pm = 4%nat ∧ length igc = 2%nat
               ∧ pm ++ igc = x_js out.2 ∧ x_js out.2 = x).
Proof.
  intros out. subst out. rewrite unpack_x_js_unfold.
  unfold configuration_error, supported.
  split_and!.
  - intros Hsup Hhky Hone Hlen.
    rewrite !bool_decide_true by (done || set_solver); simpl.
    rewrite ?bool_decide_true by done. done.
  - intros Hbad.
    repeat (case_bool_decide; simpl; eauto).
    exfalso. destruct Hbad as [?|[?|[?|?]]]; done.
  - repeat (case_bool_decide; simpl; try discriminate).
    intros _. exists (take 4 x), (drop 4 x).
    split_and!; try done.
    + rewrite length_take. lia.
    + rewrite length_drop. lia.
    + apply take_drop.
Qed.
End Partitioner.

(** The script's vector of six parameters on the script's instance. *)
Lemma unpack_x_js_partition_witness :
  (unpack_x_js main_x_js main_model).1 = Ok tt
  ∧ x_pm (unpack_x_js main_x_js main_model).2 = Some (take 4 main_x_js)
  ∧ x_IGC (unpack_x_js main_x_js main_model).2 = Some (drop 4 main_x_js)
  ∧ x_js (unpack_x_js main_x_js main_model).2 = main_x_js.
Proof.
  refine (proj1 (unpack_x_js_partition main_model main_x_js) _ eq_refl eq_refl eq_refl).
  simpl. set_solver.
Defined.

(** ** [update_by_x_js] *)

Section Update.
Context {F PM : Type} {NF : NpFloat F} {PMI : PMInterface F PM}.
Implicit Types (self : PSJSModel F PM) (x : list F).

Lemma update_by_x_js_unfold self x :
  update_by_x_js x self =
    match unpack_x_js x self with
    | (Ok _, self1) =>
      match PMModel self1, x_pm self1 with
      | None, _ => (Raise AttributeError, self1)
      | Some pm, None => (Raise TypeError, self1)
      | Some pm, Some slice =>
        ((PM_update_by_x_pm pm slice).1,
         set_PMModel (Some (PM_update_by_x_pm pm slice).2) self1)
      end
    | (Raise e, self1) => (Raise e, self1)
    end.
Proof.
  unfold update_by_x_js, mbind, M_bind at 1.
  destruct (unpack_x_js x self) as [[[]|e] self1]; [|done].
  unfold M_bind, get_self, lift, assign; simpl.
  destruct (PMModel self1) as [pm|]; [|done]; simpl.
  destruct (x_pm self1) as [slice|]; [|done]; simpl.
  by destruct (PM_update_by_x_pm pm slice) as [[[]|e] pm'].
Qed.

(** C7, as the code has it.  [update_by_x_js] stores the new vector and both
    slices and then has the collaborator rebuild its rates, in that order and
    without a rollback.  When it succeeds, all four are the new ones.  When it
    fails because a submodel name is not supported, the instance is
    unchanged.  When the names are supported and the vector has the wrong
    length, the assertion fails after [x_js], [x_pm] and [x_IGC] have been
    overwritten, and the collaborator still has its old rates. *)
Theorem update_by_x_js_outcomes self x :
  let out := update_by_x_js x self in
  (out.1 = Ok tt →
   x_js out.2 = x ∧ x_pm out.2 = Some (take 4 x) ∧ x_IGC out.2 = Some (drop 4 x)
   ∧ ∃ pm, PMModel self = Some pm
           ∧ (PM_update_by_x_pm pm (take 4 x)).1 = Ok tt
           ∧ PMModel out.2 = Some (PM_update_by_x_pm pm (take 4 x)).2)
  ∧ (pm_model self ∉ PMModel_supported ∨ pm_model self ≠ "HKY"
     ∨ IGC_pm self ∉ supported →
     (∃ e, out.1 = Raise e ∧ configuration_error e) ∧ out.2 = self)
  ∧ (pm_model self ∈ PMModel_supported → pm_model self = "HKY" →
     IGC_pm self = "One rate" → length x ≠ 6%nat →
     out.1 = Raise AssertionError
     ∧ x_js out.2 = x ∧ x_pm out.2 = Some (take 4 x) ∧ x_IGC out.2 = Some (drop 4 x)
     ∧ PMModel out.2 = PMModel self).
Proof.
  intros out. subst out. rewrite update_by_x_js_unfold, unpack_x_js_unfold.
  unfold configuration_error, supported.
  split_and!.
  - repeat (case_bool_decide; simpl; try discriminate).
    destruct (PMModel self) as [pm|]; [|discriminate]. simpl.
    intros Hok. split_and!; try done. by exists pm.
  - intros Hbad.
    destruct (bool_decide_reflect (pm_model self ∈ PMModel_supported)); simpl;
      [|split; [eexists; split; [done | by left] | done]].
    destruct (bool_decide_reflect (IGC_pm self ∈ ["One rate"])); simpl;
      [|split; [eexists; split; [done | by left] | done]].
    destruct (bool_decide_reflect (pm_model self = "HKY")); simpl;
      [|split; [eexists; split; [done | right; eauto] | done]].
    destruct Hbad as [?|[?|?]]; done.
  - intros Hsup Hhky Hone Hlen.
    rewrite !bool_decide_true by (done || set_solver); simpl.
    rewrite bool_decide_false by done. done.
Qed.
End Update.

(** Updating the script's instance with its own vector succeeds. *)
Lemma update_by_x_js_outcomes_witness :
  (update_by_x_js main_x_js main_model).1 = Ok tt
  ∧ x_js (update_by_x_js main_x_js main_model).2 = main_x_js
  ∧ x_pm (update_by_x_js main_x_js main_model).2 = Some (take 4 main_x_js)
  ∧ x_IGC (update_by_x_js main_x_js main_model).2 = Some (drop 4 main_x_js).
Proof.
  destruct (proj1 (update_by_x_js_outcomes (PMI := sample_PMInterface)
                     main_model main_x_js) eq_refl)
    as (Hjs & Hpm & Higc & _).
  by split_and!.
Defined.

(** C7 fails as stated: updating the script's instance with a vector of
    length 1 fails the length assertion, and the instance is left with the
    new [x_js], [x_pm] and [x_IGC] while its collaborator is the old one. *)
Lemma update_by_x_js_not_atomic :
  let out := update_by_x_js [Some 0%R] main_model in
  out.1 = Raise AssertionError
  ∧ x_js out.2 = [Some 0%R] ∧ x_js main_model = main_x_js
  ∧ x_pm out.2 = Some [Some 0%R] ∧ x_pm main_model = Some (take 4 main_x_js)
  ∧ x_IGC out.2 = Some [] ∧ x_IGC main_model = Some (drop 4 main_x_js)
  ∧ PMModel out.2 = PMModel main_model
  ∧ out.2 ≠ main_model.
Proof.
  cbv zeta. split_and!; try reflexivity.
  intros Heq. apply (f_equal x_js) in Heq. discriminate Heq.
Qed.

(** ** The force-map partition *)

Section Force.
Context {F PM : Type} {NF : NpFloat F} {PMI : PMInterface F PM}.
Implicit Types (self : PSJSModel F PM) (pm ig : gmap Z F) (l : list (Z * F)).

Lemma none_if_empty_decide (d : gmap Z F) :
  none_if_empty d = absent_if_empty d.
Proof.
  unfold none_if_empty, absent_if_empty. case_bool_decide as Hl; case_decide as Hd; try done.
  - by apply map_to_list_empty_iff in Hl.
  - by rewrite Hd, map_to_list_empty in Hl.
Qed.

(** The loop over the keys, for keys that are pairwise distinct (as the keys
    of a dict are). *)
Lemma divide_step_foldl l : ∀ pm ig,
  NoDup l.*1 →
  let out := foldl (divide_step 4) (pm, ig) l in
  ∀ k,
    out.1 !! k =
      match (list_to_map l : gmap Z F) !! k with
      | Some v => if decide (k < 4) then Some v else pm !! k
      | None => pm !! k
      end
    ∧ out.2 !! k =
      match (list_to_map l : gmap Z F) !! (k + 4) with
      | Some v => if decide (0 ≤ k) then Some v else ig !! k
      | None => ig !! k
      end.
Proof.
  induction l as [|[key v] l IH]; intros pm ig Hnd out k; [done|].
  simpl in Hnd. apply NoDup_cons in Hnd as [Hkey Hnd].
  assert ((list_to_map l : gmap Z F) !! key = None) as Hfresh
    by (by apply not_elem_of_list_to_map_1).
  subst out.
  change (foldl (divide_step 4) (pm, ig) ((key, v) :: l))
    with (foldl (divide_step 4) (divide_step 4 (pm, ig) (key, v)) l).
  destruct (divide_step 4 (pm, ig) (key, v)) as [pm' ig'] eqn:Hstep.
  unfold divide_step in Hstep.
  case_bool_decide as Hlt; injection Hstep as <- <-.
  - destruct (IH (<[key:=v]> pm) ig Hnd k) as [-> ->]. simpl.
    split.
    + destruct (decide (key = k)) as [->|Hne].
      * rewrite lookup_insert_eq, Hfresh, lookup_insert_eq. by rewrite decide_True.
      * rewrite !(lookup_insert_ne _ key k) by done. done.
    + destruct (decide (key = k + 4)) as [->|Hne].
      * rewrite lookup_insert_eq, Hfresh. rewrite decide_False by lia. done.
      * by rewrite lookup_insert_ne.
  - destruct (IH pm (<[key - 4:=v]> ig) Hnd k) as [-> ->]. simpl.
    split.
    + destruct (decide (key = k)) as [->|Hne].
      * rewrite lookup_insert_eq, Hfresh. by rewrite decide_False.
      * by rewrite lookup_insert_ne.
    + destruct (decide (key = k + 4)) as [->|Hne].
      * rewrite lookup_insert_eq, Hfresh.
        replace (k + 4 - 4) with k by lia. rewrite lookup_insert_eq.
        by rewrite decide_True by lia.
      * rewrite (lookup_insert_ne _ key) by done.
        rewrite (lookup_insert_ne _ (key - 4)) by lia. done.
Qed.

(** C9. [divide_force] returns [(None, None)] when the stored force map is
    absent.  Otherwise (point-mutation model "HKY", slice size 4) the
    point-mutation force map holds exactly the entries with key < 4,
    unchanged, the IGC force map holds exactly the entries with key >= 4,
    each under key - 4, and a map that ends up empty is returned as [None]. *)
Theorem divide_force_partition self :
  (force self = None → divide_force self = Ok (None, None))
  ∧ (∀ f, force self = Some f →
       pm_model self ∈ PMModel_supported → pm_model self = "HKY" →
       IGC_pm self = "One rate" →
       ∃ pm_force igc_force,
         divide_force self
         = Ok (absent_if_empty pm_force, absent_if_empty igc_force)
         ∧ (∀ key, pm_force !! key = if decide (key < 4) then f !! key else None)
         ∧ (∀ key, igc_force !! (key - 4) = if decide (4 ≤ key) then f !! key else None)).
Proof.
  split.
  - intros Hnone. unfold divide_force. by rewrite Hnone.
  - intros f Hf Hsup Hhky Hone. unfold divide_force. rewrite Hf.
    unfold supported. rewrite !bool_decide_true by (done || set_solver); simpl.
    pose proof (divide_step_foldl (map_to_list f) ∅ ∅ (NoDup_fst_map_to_list f)) as Hfold.
    cbv zeta in Hfold. rewrite list_to_map_to_list in Hfold.
    destruct (foldl (divide_step 4) (∅, ∅) (map_to_list f)) as [pm_force igc_force].
    simpl in Hfold. exists pm_force, igc_force.
    rewrite !none_if_empty_decide. split_and!; [done | |].
    + intros key. destruct (Hfold key) as [-> _].
      rewrite lookup_empty. destruct (f !! key); by case_decide.
    + intros key. destruct (Hfold (key - 4)) as [_ ->].
      replace (key - 4 + 4) with key by lia.
      rewrite lookup_empty. destruct (f !! key); repeat case_decide; done || lia.
Qed.
End Force.

(** A force map with keys 0 and 5: key 0 stays, key 5 becomes key 1 of the IGC
    force map. *)
Lemma divide_force_partition_witness :
  ∃ pm_force igc_force : gmap Z (option R),
    divide_force forced_model
    = Ok (absent_if_empty pm_force, absent_if_empty igc_force)
    ∧ pm_force !! 0 = Some (Some (ln (3 / 10)))
    ∧ igc_force !! 1 = Some (Some 0%R).
Proof.
  destruct (proj2 (divide_force_partition (PMI := sample_PMInterface) forced_model)
              {[ 0 := Some (ln (3 / 10)); 5 := Some 0%R ]} eq_refl
              ltac:(simpl; set_solver) eq_refl eq_refl)
    as (pm_force & igc_force & Hcall & Hpm & Higc).
  exists pm_force, igc_force. split_and!; [exact Hcall | |].
  - rewrite Hpm, decide_True by lia. apply lookup_insert_eq.
  - change 1 with (5 - 4). rewrite Higc, decide_True by lia.
    rewrite lookup_insert_ne by lia. apply lookup_singleton_eq.
Defined.

Example divide_force_forced_model :
  divide_force forced_model
  = Ok (Some {[ 0 := Some (ln (3 / 10)) ]}, Some {[ 1 := Some 0%R ]}).
Proof. reflexivity. Qed.

(** ** The enumeration of the state space *)

Lemma fmap_bind_list {A B C} (f : B → C) (g : A → list B) (l : list A) :
  f <$> (l ≫= g) = l ≫= (λ x, f <$> g x).
Proof.
  induction l as [|x l IH]; [done|].
  by rewrite !bind_cons, fmap_app, IH.
Qed.

Lemma product_repeat_4 {A} (xs : list A) :
  product_repeat xs 4 = (a ← xs; b ← xs; c ← xs; d ← xs; [[a; b; c; d]]).
Proof.
  simpl. apply list_bind_ext; [|done]. intros a.
  rewrite fmap_bind_list. apply list_bind_ext; [|done]. intros b.
  rewrite !fmap_bind_list. apply list_bind_ext; [|done]. intros c.
  rewrite !fmap_bind_list. apply list_bind_ext; [|done]. intros d.
  done.
Qed.

Lemma elem_of_joint_states (alphabet : Z) (s : state) :
  s ∈ joint_states alphabet →
  length s = 4%nat ∧ ∀ i, (i < 4)%nat → 0 ≤ item s i < alphabet.
Proof.
  unfold joint_states.
  intros (ia & Hs & Hia%elem_of_seqZ)%list_elem_of_bind.
  apply list_elem_of_bind in Hs as (ib & Hs & Hib%elem_of_seqZ).
  apply list_elem_of_bind in Hs as (ja & Hs & Hja%elem_of_seqZ).
  apply list_elem_of_bind in Hs as (jb & Hs & Hjb%elem_of_seqZ).
  apply list_elem_of_singleton in Hs as ->.
  split; [done|]. intros [|[|[|[|?]]]] ?; unfold item; simpl; lia.
Qed.

(** ** Loops that yield *)

Section Loops.
Context {A B : Type}.
Implicit Types (body : A → res (list B)).

Lemma for_yield_app xs ys body :
  for_yield (xs ++ ys) body =
    (a ← for_yield xs body; b ← for_yield ys body; Ok (a ++ b)).
Proof.
  induction xs as [|x xs IH]; simpl.
  - by destruct (for_yield ys body).
  - destruct (body x) as [r|e]; simpl; [|done]. rewrite IH.
    destruct (for_yield xs body) as [a|e]; simpl; [|done].
    destruct (for_yield ys body) as [b|e]; simpl; [|done].
    by rewrite (assoc_L (++)).
Qed.

Lemma for_yield_fmap {A'} (f : A' → A) (xs : list A') body :
  for_yield (f <$> xs) body = for_yield xs (body ∘ f).
Proof. induction xs as [|x xs IH]; csimpl; [done|]. by rewrite IH. Qed.

Lemma for_yield_ext xs body body' :
  (∀ x, x ∈ xs → body x = body' x) → for_yield xs body = for_yield xs body'.
Proof.
  induction xs as [|x xs IH]; intros Hext; simpl; [done|].
  rewrite (Hext x) by apply list_elem_of_here.
  rewrite IH; [done|]. intros y Hy. apply Hext. by apply list_elem_of_further.
Qed.
End Loops.

(** A loop over [xs] whose body runs a loop over [ys] is a loop over the
    pairs. *)
Lemma for_yield_nested {A A' B} (xs : list A) (ys : list A')
    (body : A * A' → res (list B)) :
  for_yield xs (λ x, for_yield ys (λ y, body (x, y)))
  = for_yield (list_prod xs ys) body.
Proof.
  induction xs as [|x xs IH]; simpl; [done|].
  rewrite for_yield_app, IH.
  change (map (λ y, (x, y)) ys) with ((λ y, (x, y)) <$> ys).
  rewrite for_yield_fmap.
  destruct (for_yield ys _) as [a|e]; simpl; [|done].
  by destruct (for_yield (list_prod xs ys) body).
Qed.

Lemma mapM_res_Ok {A B} (f : A → res B) (l : list A) (k : list B) :
  mapM f l = Ok k ↔ Forall2 (λ x y, f x = Ok y) l k.
Proof.
  revert k. induction l as [|x l IH]; intros k; simpl.
  - split; [intros [= <-]; constructor | by intros ->%Forall2_nil_inv_l].
  - split.
    + destruct (f x) as [y|e] eqn:Hfx; simpl; [|discriminate].
      destruct (mapM f l) as [k'|e] eqn:Hl; simpl; [|discriminate].
      intros [= <-]. constructor; [done | by apply IH].
    + intros (y & k' & Hfx & Hl & ->)%Forall2_cons_inv_l.
      rewrite Hfx; simpl. apply IH in Hl. by rewrite Hl.
Qed.

Lemma foldl_append_row {F} (rows : list (state * state * F)) :
  ∀ row_states column_states rates,
    foldl append_row (row_states, column_states, rates) rows
    = (row_states ++ rows.*1.*1, column_states ++ rows.*1.*2, rates ++ rows.*2).
Proof.
  induction rows as [|[[r c] x] rows IH]; intros rs cs xs; simpl.
  - by rewrite !(right_id_L [] (++)).
  - rewrite IH. by rewrite <- !(assoc_L (++)).
Qed.

(** ** The process-definition assembler *)

Section Assembler.
Context {F PM : Type} {NF : NpFloat F} {PMI : PMInterface F PM}.
Implicit Types (self : PSJSModel F PM) (state_from state_to : state).

Lemma is_transition_compatible_total self shape state_from state_to :
  state_space_shape self = Some shape → length shape = 4%nat →
  length state_from = 4%nat → length state_to = 4%nat →
  ∃ b, is_transition_compatible self (state_from, state_to) = Ok b.
Proof.
  intros Hshape Hlen (a0 & a1 & a2 & a3 & ->)%length_4_inv
    (b0 & b1 & b2 & b3 & ->)%length_4_inv.
  unfold is_transition_compatible. rewrite Hshape; simpl.
  rewrite (bool_decide_true (length shape = 4%nat)) by done; simpl.
  rewrite Hlen; simpl.
  rewrite diff_positions_4.
  destruct (decide (a0 = b0)), (decide (a1 = b1)),
    (decide (a2 = b2)), (decide (a3 = b3)); subst; simpl;
    (rewrite ?bool_decide_true by done);
    (rewrite ?(bool_decide_false (_ = _ :> list Z)) by congruence); simpl;
    try (by exists false); try (by exists true);
    match goal with |- context [is_tract_copy ?l ?s ?t] =>
      destruct (is_tract_copy l s t); by eexists end.
Qed.

Lemma enumerate_states_4 self alphabet rest :
  state_space_shape self = Some (alphabet :: rest) → n_js self = 2 →
  enumerate_states self = Ok (joint_states alphabet).
Proof.
  intros Hshape Hn. unfold enumerate_states. rewrite Hshape, Hn.
  unfold joint_states. by rewrite <- (product_repeat_4 (seqZ 0 alphabet)).
Qed.

Lemma for_yield_rate self n proportion (pairs : list transition) :
  (∀ t, t ∈ pairs → ∃ b, is_transition_compatible self t = Ok b) →
  for_yield pairs (yield_rate self n proportion)
  = (rates ← mapM (λ t, cal_IGC_transition_rate self t n proportion)
               (filter (λ t, compatible self t) pairs);
     Ok (zip (filter (λ t, compatible self t) pairs) rates)).
Proof.
  induction pairs as [|[state_from state_to] pairs IH]; intros Htotal; [done|].
  destruct (Htotal (state_from, state_to)) as [b Hb]; [apply list_elem_of_here|].
  rewrite filter_cons. simpl for_yield.
  rewrite IH by (intros t Ht; apply Htotal; by apply list_elem_of_further).
  rewrite Hb. destruct b; simpl.
  - rewrite decide_True by (unfold compatible; by rewrite Hb). simpl.
    destruct (cal_IGC_transition_rate self (state_from, state_to) n proportion)
      as [rate|e]; simpl; [|done].
    destruct (mapM _ _) as [rates|e]; reflexivity.
  - rewrite decide_False by (unfold compatible; rewrite Hb; simpl; tauto).
    destruct (mapM _ _) as [rates|e]; reflexivity.
Qed.

Lemma get_process_definition_refines self alphabet rest n proportion :
  state_space_shape self = Some (alphabet :: rest) → length rest = 3%nat →
  n_js self = 2 →
  get_process_definition self n proportion
  = process_definition_spec self alphabet n proportion.
Proof.
  intros Hshape Hlen Hn.
  unfold get_process_definition, get_IGC_transition_rates_BF.
  rewrite !(enumerate_states_4 self alphabet rest) by done. simpl.
  change (for_yield (joint_states alphabet) _)
    with (for_yield (joint_states alphabet)
            (λ state_from, for_yield (joint_states alphabet)
               (λ state_to, yield_rate self n proportion (state_from, state_to)))).
  rewrite for_yield_nested, for_yield_rate.
  - unfold process_definition_spec, compatible_pairs.
    destruct (mapM _ _) as [rates|e] eqn:Hrates; simpl; [|done].
    apply mapM_res_Ok, Forall2_length in Hrates.
    rewrite foldl_append_row; simpl.
    rewrite fst_zip by (apply Nat.eq_le_incl; exact Hrates).
    rewrite snd_zip by (apply Nat.eq_le_incl; symmetry; exact Hrates).
    by destruct proportion.
  - intros [state_from state_to] [Hf Ht]%list_elem_of_In%in_prod_iff.
    apply list_elem_of_In, elem_of_joint_states in Hf as [Hf _].
    apply list_elem_of_In, elem_of_joint_states in Ht as [Ht _].
    eapply is_transition_compatible_total; [done | simpl; lia | done | done].
Qed.
Lemma mapM_res_total {A B} (f : A → res B) (l : list A) :
  (∀ x, x ∈ l → ∃ y, f x = Ok y) → ∃ k, mapM f l = Ok k.
Proof.
  induction l as [|x l IH]; intros Hf; simpl; [by eexists|].
  destruct (Hf x) as [y Hy]; [apply list_elem_of_here|].
  destruct IH as [k Hk]; [intros z Hz; apply Hf; by apply list_elem_of_further|].
  rewrite Hy, Hk. by eexists.
Qed.

(** C4. On an instance with a 4-coordinate state space ([n_js = 2]),
    [get_process_definition(n, proportion)] is the process definition put
    together from the predicate and the calculator; and where the calculator
    is defined it returns a record whose [row_states] and [column_states] are,
    in order, the two components of exactly the pairs of the cartesian product
    of the state space with itself that are compatible, and whose third
    sequence, of the same length, holds the calculator's value for each pair,
    under the key [weights] when [proportion] is true and [transition_rates]
    when it is false. *)
Theorem get_process_definition_assembles self alphabet rest n proportion :
  state_space_shape self = Some (alphabet :: rest) → length rest = 3%nat →
  n_js self = 2 →
  IGC_pm self = "One rate" →
  (∃ xi xp, x_IGC self = Some [xi; xp]) →
  (∃ pm, PMModel self = Some pm
         ∧ ∀ a b, 0 ≤ a < alphabet → 0 ≤ b < alphabet →
                  ∃ q, PM_Q_mut pm a b = Ok q) →
  let pairs := compatible_pairs self alphabet in
  get_process_definition self n proportion
  = process_definition_spec self alphabet n proportion
  ∧ ∃ pd rates,
      get_process_definition self n proportion = Ok pd
      ∧ pd !! "row_states" = Some (StateColumn pairs.*1)
      ∧ pd !! "column_states" = Some (StateColumn pairs.*2)
      ∧ pd !! (if proportion then "weights" else "transition_rates")
        = Some (RateColumn rates)
      ∧ pd !! (if proportion then "transition_rates" else "weights") = None
      ∧ Forall2 (λ t rate, cal_IGC_transition_rate self t n proportion = Ok rate)
          pairs rates
      ∧ length pairs.*1 = length rates ∧ length pairs.*2 = length rates.
Proof.
  intros Hshape Hlen Hn Hone Hx (pm & Hpm & Hq) pairs.
  pose proof (get_process_definition_refines self alphabet rest n proportion
                Hshape Hlen Hn) as Href.
  split; [exact Href|].
  destruct (mapM_res_total (λ t, cal_IGC_transition_rate self t n proportion) pairs)
    as [rates Hrates].
  { intros [state_from state_to] [Hc Hin]%list_elem_of_filter.
    apply list_elem_of_In, in_prod_iff in Hin as [Hf Ht].
    apply list_elem_of_In, elem_of_joint_states in Hf as [_ Hf].
    apply list_elem_of_In, elem_of_joint_states in Ht as [_ Ht].
    apply cal_IGC_transition_rate_total; [|done|done|].
    - unfold compatible in Hc.
      by destruct (is_transition_compatible self (state_from, state_to)) as [[]|].
    - exists pm. split; [done|]. intros i Hi. apply Hq; [by apply Hf | by apply Ht]. }
  rewrite Href. unfold process_definition_spec. fold pairs. rewrite Hrates. simpl.
  pose proof (Forall2_length _ _ _ (proj1 (mapM_res_Ok _ _ _) Hrates)) as Hlength.
  eexists _, rates. split; [reflexivity|].
  split_and!.
  - apply lookup_insert_eq.
  - rewrite lookup_insert_ne by done. apply lookup_insert_eq.
  - rewrite !lookup_insert_ne by (by destruct proportion). apply lookup_singleton_eq.
  - rewrite !lookup_insert_ne by (by destruct proportion).
    apply lookup_singleton_ne. by destruct proportion.
  - by apply mapM_res_Ok.
  - by rewrite length_fmap.
  - by rewrite length_fmap.
Qed.
End Assembler.

(** The process definition of the script's instance at separation 50. *)
Lemma get_process_definition_assembles_witness :
  ∃ pd rates,
    get_process_definition main_model 50 false = Ok pd
    ∧ pd !! "row_states" = Some (StateColumn (compatible_pairs main_model 4).*1)
    ∧ pd !! "column_states" = Some (StateColumn (compatible_pairs main_model 4).*2)
    ∧ pd !! "transition_rates" = Some (RateColumn rates)
    ∧ pd !! "weights" = None.
Proof.
  assert (∃ pm, PMModel main_model = Some pm
                ∧ ∀ a b, 0 ≤ a < 4 → 0 ≤ b < 4 → ∃ q, PM_Q_mut pm a b = Ok q)
    as Htable.
  { eexists; split; [reflexivity|]. intros a b Ha Hb.
    simpl. unfold sample_Q_mut. rewrite bool_decide_true by lia. by eexists. }
  destruct (proj2 (get_process_definition_assembles (PMI := sample_PMInterface)
                     main_model 4 [4; 4; 4] 50 false eq_refl eq_refl eq_refl eq_refl
                     (ex_intro _ _ (ex_intro _ _ eq_refl)) Htable))
    as (pd & rates & Hcall & Hrows & Hcols & Hrates & Hother & _).
  exists pd, rates.
  exact (conj Hcall (conj Hrows (conj Hcols (conj Hrates Hother)))).
Defined.

(** ** Instances built by the constructor *)

Section Constructor.
Context {F PM : Type} {NF : NpFloat F} {PMI : PMInterface F PM}.
Implicit Types (self : PSJSModel F PM) (x : list F).

Lemma unpack_x_js_frame self x :
  let self' := (unpack_x_js x self).2 in
  n_js self' = n_js self ∧ state_space_shape self' = state_space_shape self
  ∧ pm_model self' = pm_model self ∧ IGC_pm self' = IGC_pm self
  ∧ PMModel self' = PMModel self.
Proof.
  cbv zeta. rewrite unpack_x_js_unfold.
  by repeat (case_bool_decide; simpl).
Qed.

Lemma update_by_x_js_frame self x :
  let self' := (update_by_x_js x self).2 in
  n_js self' = n_js self ∧ state_space_shape self' = state_space_shape self
  ∧ pm_model self' = pm_model self ∧ IGC_pm self' = IGC_pm self.
Proof.
  cbv zeta. rewrite update_by_x_js_unfold.
  pose proof (unpack_x_js_frame self x) as (Hn & Hs & Hp & Hi & _). cbv zeta in *.
  destruct (unpack_x_js x self) as [[[]|e] self1]; simpl in *; [|done].
  destruct (PMModel self1); [|done].
  by destruct (x_pm self1).
Qed.

Lemma init_models_inv self self' :
  init_models self = (Ok tt, self') →
  n_js self' = n_js self
  ∧ state_space_shape self' = Some (replicate (Z.to_nat (n_js self * 2)) 4)
  ∧ size (list_to_set (replicate (Z.to_nat (n_js self * 2)) 4) : gset Z) = 1%nat.
Proof.
  unfold init_models, mbind, M_bind, get_self, assign, lift. simpl.
  pose proof (unpack_x_js_frame self (x_js self)) as (Hn & _). cbv zeta in Hn.
  destruct (unpack_x_js (x_js self) self) as [[[]|e] self1]; [|discriminate].
  simpl in Hn.
  destruct (bool_decide (pm_model self1 = "HKY")); [|discriminate].
  destruct (divide_force _) as [[pm_force IGC_force]|e]; [|discriminate].
  simpl. destruct (x_pm self1) as [slice|]; [|discriminate]. simpl.
  destruct (PMModel_new _ _ _) as [pm|e]; [|discriminate]. simpl.
  destruct (bool_decide_reflect
              (size (list_to_set (replicate (Z.to_nat (n_js self1 * 2)) 4) : gset Z)
               = 1%nat)) as [Hsize|]; [|discriminate].
  simpl. intros Hupdate.
  pose proof (update_by_x_js_frame
                (set_IGC_force IGC_force
                   (set_PMModel (Some pm)
                      (set_state_space_shape
                         (Some (replicate (Z.to_nat (n_js self1 * 2)) 4)) self1)))
                (x_js self1)) as (Hn' & Hs' & _).
  cbv zeta in Hn', Hs'. simpl in Hupdate. rewrite Hupdate in Hn', Hs'.
  simpl in Hn', Hs'. rewrite <- Hn. by rewrite Hn', Hs'.
Qed.
Lemma product_repeat_nonempty {A} (x : A) (xs : list A) (k : nat) :
  ∃ s l, product_repeat (x :: xs) k = s :: l.
Proof.
  induction k as [|k (s & l & IH)]; [by eexists _, _|].
  change (product_repeat (x :: xs) (S k))
    with ((x :: xs) ≫= λ y, (λ t, y :: t) <$> product_repeat (x :: xs) k).
  rewrite bind_cons, IH. csimpl. by eexists _, _.
Qed.

(** C10. The constructor builds a state-space shape of length [2 * n_js],
    and [is_transition_compatible] asserts that this length is 4.  So on any
    instance the constructor has returned with [n_js != 2], every call of
    [is_transition_compatible], of [cal_IGC_transition_rate] and of the
    assembler ([get_IGC_transition_rates_BF], [get_process_definition]) fails
    that assertion. *)
Theorem n_js_other_than_2_asserts
    x pm_model0 n_orlg0 IGC_pm0 force0 n_js0 self t n proportion :
  new_PSJSModel x pm_model0 n_orlg0 IGC_pm0 force0 n_js0 = Ok self →
  n_js0 ≠ 2 →
  (∃ shape, state_space_shape self = Some shape
            ∧ Z.of_nat (length shape) = 2 * n_js0)
  ∧ is_transition_compatible self t = Raise AssertionError
  ∧ cal_IGC_transition_rate self t n proportion = Raise AssertionError
  ∧ get_IGC_transition_rates_BF self n proportion = Raise AssertionError
  ∧ get_process_definition self n proportion = Raise AssertionError.
Proof.
  intros Hnew Hne. unfold new_PSJSModel in Hnew.
  destruct (init_models _) as [[[]|e] self1] eqn:Hinit; [|discriminate].
  injection Hnew as ->.
  apply init_models_inv in Hinit as (Hn & Hshape & Hsize). simpl in Hn, Hshape, Hsize.
  assert (0 < n_js0) as Hpos.
  { destruct (Z.to_nat (n_js0 * 2)) eqn:Hk; [|lia].
    vm_compute in Hsize. discriminate Hsize. }
  assert (∀ t', is_transition_compatible self t' = Raise AssertionError) as Hcompat.
  { intros t'. unfold is_transition_compatible. rewrite Hshape; simpl.
    rewrite length_replicate. rewrite bool_decide_false by lia. done. }
  assert (get_IGC_transition_rates_BF self n proportion = Raise AssertionError)
    as Hrates.
  { unfold get_IGC_transition_rates_BF, enumerate_states. rewrite Hshape, Hn.
    assert (∃ k, replicate (Z.to_nat (n_js0 * 2)) 4 = 4 :: replicate k 4)
      as [k ->].
    { destruct (Z.to_nat (n_js0 * 2)) as [|k] eqn:Hk; [lia|]. by exists k. }
    destruct (product_repeat_nonempty 0 [1; 2; 3] (Z.to_nat (n_js0 * 2)))
      as (s & l & Hstates).
    simpl. rewrite bool_decide_false by lia.
    change (seqZ 0 4) with [0; 1; 2; 3]. rewrite Hstates.
    simpl. by rewrite Hcompat. }
  split_and!.
  - eexists; split; [done|]. rewrite length_replicate. lia.
  - apply Hcompat.
  - unfold cal_IGC_transition_rate. by rewrite Hcompat.
  - exact Hrates.
  - unfold get_process_definition. by rewrite Hrates.
Qed.
End Constructor.

Example three_js_model_constructed :
  new_PSJSModel main_x_js "HKY" 3 "One rate" None 3 = Ok three_js_model.
Proof. reflexivity. Qed.

(** The script's parameters with [n_js = 3]. *)
Lemma n_js_other_than_2_asserts_witness :
  is_transition_compatible three_js_model
    ([0; 0; 0; 0; 0; 0], [1; 0; 0; 0; 0; 0]) = Raise AssertionError
  ∧ cal_IGC_transition_rate three_js_model
      ([0; 0; 0; 0; 0; 0], [1; 0; 0; 0; 0; 0]) 1 false = Raise AssertionError
  ∧ get_process_definition three_js_model 1 false = Raise AssertionError.
Proof.
  destruct (n_js_other_than_2_asserts (PMI := sample_PMInterface)
              main_x_js "HKY" 3 "One rate" None 3 three_js_model
              ([0; 0; 0; 0; 0; 0], [1; 0; 0; 0; 0; 0]) 1 false
              eq_refl ltac:(lia))
    as (_ & Hcompat & Hcal & _ & Hpd).
  exact (conj Hcompat (conj Hcal Hpd)).
Defined.

(** * Further properties of the code *)

(** ** [get_other_pos] *)

(** X1. For a position 0..3, [get_other_pos] returns the three other
    positions, each once, and the relation is symmetric: seen from any of the
    three, the same role leads back.  Any other position exits. *)
Theorem get_other_pos_symmetric (pos : nat) :
  ((pos < 4)%nat →
   ∃ same_paralog_other other_paralog_same other_paralog_other,
     get_other_pos pos
     = Ok (same_paralog_other, other_paralog_same, other_paralog_other)
     ∧ [pos; same_paralog_other; other_paralog_same; other_paralog_other]
       ≡ₚ [0; 1; 2; 3]%nat
     ∧ get_other_pos same_paralog_other
       = Ok (pos, other_paralog_other, other_paralog_same)
     ∧ get_other_pos other_paralog_same
       = Ok (other_paralog_other, pos, same_paralog_other)
     ∧ get_other_pos other_paralog_other
       = Ok (other_paralog_same, same_paralog_other, pos))
  ∧ ((4 ≤ pos)%nat → get_other_pos pos = Raise (SystemExit "Position out of range.")).
Proof.
  split.
  - intros Hpos. destruct pos as [|[|[|[|?]]]]; try lia; simpl;
      eexists _, _, _; (split; [reflexivity|]); (split; [|done]);
      solve_Permutation.
  - intros Hpos. by destruct pos as [|[|[|[|?]]]]; try lia.
Qed.

(** ** Outcomes of [is_transition_compatible] *)

Section Outcomes.
Context {F PM : Type}.
Implicit Types (self : PSJSModel F PM) (state_from state_to : state).

Lemma is_transition_compatible_Ok_inv self state_from state_to b :
  is_transition_compatible self (state_from, state_to) = Ok b →
  ∃ shape, state_space_shape self = Some shape ∧ length shape = 4%nat
           ∧ length state_from = 4%nat ∧ length state_to = 4%nat.
Proof.
  unfold is_transition_compatible.
  destruct (state_space_shape self) as [shape|]; simpl; [|discriminate].
  destruct (bool_decide_reflect (length shape = 4%nat)) as [Hs|]; simpl; [|discriminate].
  destruct (bool_decide_reflect (length state_from = length state_to)) as [Hft|];
    simpl; [|discriminate].
  destruct (bool_decide_reflect (length state_to = length shape)) as [Hts|];
    simpl; [|discriminate].
  intros _. exists shape. split_and!; congruence.
Qed.

Lemma is_transition_compatible_sequences_same_type self (a b : sequence) :
  type_of a = type_of b →
  is_transition_compatible_sequences self (a, b)
  = is_transition_compatible self (entries a, entries b).
Proof.
  intros Htype. unfold is_transition_compatible_sequences, is_transition_compatible,
    sequence_eq.
  by rewrite (bool_decide_true _ Htype).
Qed.

Lemma is_transition_compatible_sequences_mixed self (a b : sequence) shape :
  state_space_shape self = Some shape → length shape = 4%nat →
  length (entries a) = 4%nat → length (entries b) = 4%nat →
  type_of a ≠ type_of b →
  is_transition_compatible_sequences self (a, b)
  = if decide (entries a = entries b)
    then Raise (SystemExit "Check is_transition_compatible function in PSJSModel class.")
    else is_transition_compatible self (entries a, entries b).
Proof.
  intros Hshape Hs Ha Hb Htype.
  unfold is_transition_compatible_sequences, is_transition_compatible, sequence_eq.
  rewrite Hshape; simpl.
  rewrite (bool_decide_true (length shape = 4%nat)) by done; simpl.
  rewrite Ha, Hb, Hs; simpl.
  rewrite (bool_decide_false _ Htype); simpl.
  destruct (decide (entries a = entries b)) as [Heq|Hne].
  - rewrite Heq.
    apply length_4_inv in Hb as (b0 & b1 & b2 & b3 & ->).
    rewrite diff_positions_4. by rewrite !decide_True.
  - by rewrite (bool_decide_false _ Hne).
Qed.

(** X2. On states handed over as tuples or lists,
    [is_transition_compatible] raises a [TypeError] when there is no shape
    and fails an assertion when the shape or a state does not have four
    coordinates.  With four coordinates everywhere it answers with a boolean
    (the one it gives for two tuples of these entries) when the two states
    are of one type or differ in an entry, and its final [sys.exit] is
    reached exactly when a tuple is compared with a list of the same
    entries. *)
Theorem is_transition_compatible_outcomes self (state_from state_to : sequence) :
  let answer := is_transition_compatible_sequences self (state_from, state_to) in
  (state_space_shape self = None → answer = Raise TypeError)
  ∧ (∀ shape, state_space_shape self = Some shape →
       (¬ (length shape = 4%nat ∧ length (entries state_from) = 4%nat
           ∧ length (entries state_to) = 4%nat) →
        answer = Raise AssertionError)
       ∧ (length shape = 4%nat ∧ length (entries state_from) = 4%nat
          ∧ length (entries state_to) = 4%nat →
          (type_of state_from = type_of state_to
           ∨ entries state_from ≠ entries state_to →
           ∃ b, answer = Ok b
                ∧ is_transition_compatible self
                    (entries state_from, entries state_to) = Ok b)
          ∧ (type_of state_from ≠ type_of state_to
             ∧ entries state_from = entries state_to →
             answer = Raise (SystemExit
                       "Check is_transition_compatible function in PSJSModel class."))))
  ∧ (∀ msg, answer = Raise (SystemExit msg) →
       type_of state_from ≠ type_of state_to
       ∧ entries state_from = entries state_to).
Proof.
  intros answer. subst answer.
  assert (∀ shape, state_space_shape self = Some shape →
            ¬ (length shape = 4%nat ∧ length (entries state_from) = 4%nat
               ∧ length (entries state_to) = 4%nat) →
            is_transition_compatible_sequences self (state_from, state_to)
            = Raise AssertionError) as Hbad.
  { intros shape Hshape Hnot. unfold is_transition_compatible_sequences.
    rewrite Hshape; simpl.
    destruct (bool_decide_reflect (length shape = 4%nat)) as [Hs|]; simpl; [|done].
    destruct (bool_decide_reflect
                (length (entries state_from) = length (entries state_to))) as [Hft|];
      simpl; [|done].
    destruct (bool_decide_reflect (length (entries state_to) = length shape)) as [Hts|];
      simpl; [|done].
    destruct Hnot. split_and!; congruence. }
  assert (∀ shape, state_space_shape self = Some shape →
            length shape = 4%nat → length (entries state_from) = 4%nat →
            length (entries state_to) = 4%nat →
            type_of state_from = type_of state_to
            ∨ entries state_from ≠ entries state_to →
            ∃ b, is_transition_compatible_sequences self (state_from, state_to) = Ok b
                 ∧ is_transition_compatible self
                     (entries state_from, entries state_to) = Ok b) as Hgood.
  { intros shape Hshape Hs Hf Ht Hcase.
    destruct (is_transition_compatible_total self shape
                (entries state_from) (entries state_to)) as [b Hb]; try done.
    exists b. split; [|done].
    destruct (decide (type_of state_from = type_of state_to)) as [Htype|Htype].
    - by rewrite is_transition_compatible_sequences_same_type.
    - rewrite (is_transition_compatible_sequences_mixed self _ _ shape) by done.
      destruct Hcase as [?|Hne]; [done|]. by rewrite decide_False. }
  split; [|split].
  - intros Hnone. unfold is_transition_compatible_sequences. by rewrite Hnone.
  - intros shape Hshape. split; [by apply Hbad|].
    intros (Hs & Hf & Ht). split; [by apply (Hgood shape)|].
    intros [Htype Heq].
    rewrite (is_transition_compatible_sequences_mixed self _ _ shape) by done.
    by rewrite decide_True.
  - intros msg Hexit.
    destruct (state_space_shape self) as [shape|] eqn:Hshape.
    + destruct (decide (length shape = 4%nat ∧ length (entries state_from) = 4%nat
                        ∧ length (entries state_to) = 4%nat)) as [(Hs & Hf & Ht)|Hnot].
      * destruct (decide (type_of state_from = type_of state_to)) as [Htype|Htype];
          [|destruct (decide (entries state_from = entries state_to)) as [Heq|Hne]].
        -- destruct (Hgood shape eq_refl Hs Hf Ht (or_introl Htype)) as (b & Hb & _).
           congruence.
        -- done.
        -- destruct (Hgood shape eq_refl Hs Hf Ht (or_intror Hne)) as (b & Hb & _).
           congruence.
      * rewrite (Hbad shape) in Hexit by done. discriminate.
    + unfold is_transition_compatible_sequences in Hexit.
      rewrite Hshape in Hexit. discriminate.
Qed.
End Outcomes.

(** ** Reversal and symmetry of the predicate *)

Section Symmetry.
Context {F PM : Type}.
Implicit Types (self : PSJSModel F PM) (state_from state_to : state).

(** X3. A compatible single-coordinate transition is compatible in the other
    direction too.  A compatible two-coordinate transition (a whole-tract
    copy) is not: its reverse is rejected, and its destination has the same
    values in both paralogs at both sites. *)
Theorem tract_copy_not_reversible self state_from state_to :
  is_transition_compatible self (state_from, state_to) = Ok true →
  (n_differing state_from state_to = 1%nat →
   is_transition_compatible self (state_to, state_from) = Ok true)
  ∧ (n_differing state_from state_to = 2%nat →
     is_transition_compatible self (state_to, state_from) = Ok false
     ∧ item state_to 0 = item state_to 2 ∧ item state_to 1 = item state_to 3).
Proof.
  intros Hcompat.
  destruct (is_transition_compatible_Ok_inv _ _ _ _ Hcompat)
    as (shape & Hshape & Hlen & (a0 & a1 & a2 & a3 & ->)%length_4_inv
        & (b0 & b1 & b2 & b3 & ->)%length_4_inv).
  revert Hcompat. rewrite n_differing_4.
  unfold is_transition_compatible. rewrite Hshape; simpl.
  rewrite (bool_decide_true (length shape = 4%nat)) by done; simpl.
  rewrite Hlen; simpl. rewrite !diff_positions_4.
  destruct (decide (a0 = b0)), (decide (a1 = b1)),
    (decide (a2 = b2)), (decide (a3 = b3)),
    (decide (b0 = a0)), (decide (b1 = a1)),
    (decide (b2 = a2)), (decide (b3 = a3)); try congruence; subst; simpl;
    (rewrite ?bool_decide_true by done);
    (rewrite ?(bool_decide_false (_ = _ :> list Z)) by congruence); simpl;
    unfold is_tract_copy, item; simpl;
    repeat match goal with
           | |- context [bool_decide ?P] => destruct (bool_decide_reflect P)
           end; simpl; intros Hcompat; try discriminate;
    (split; intros Hd; try discriminate; try done; try lia);
    try (split_and!; congruence).
Qed.
End Symmetry.

Section SwapPredicate.
Context {F PM : Type}.
Implicit Types (self : PSJSModel F PM) (state_from state_to : state).

Lemma is_transition_compatible_swap_paralogs self state_from state_to :
  length state_from = 4%nat → length state_to = 4%nat →
  is_transition_compatible self (swap_paralogs state_from, swap_paralogs state_to)
  = is_transition_compatible self (state_from, state_to).
Proof.
  intros (a0 & a1 & a2 & a3 & ->)%length_4_inv (b0 & b1 & b2 & b3 & ->)%length_4_inv.
  unfold swap_paralogs, item; simpl.
  unfold is_transition_compatible.
  destruct (state_space_shape self) as [shape|]; simpl; [|done].
  destruct (bool_decide_reflect (length shape = 4%nat)) as [Hlen|]; simpl; [|done].
  rewrite Hlen; simpl. rewrite !diff_positions_4.
  destruct (decide (a0 = b0)), (decide (a1 = b1)),
    (decide (a2 = b2)), (decide (a3 = b3)); subst; simpl;
    (rewrite ?bool_decide_true by done);
    (rewrite ?(bool_decide_false (_ = _ :> list Z)) by congruence); simpl;
    unfold is_tract_copy, item; simpl;
    repeat match goal with
           | |- context [bool_decide ?P] => destruct (bool_decide_reflect P)
           end; simpl; try done; congruence.
Qed.

Lemma is_transition_compatible_swap_sites self state_from state_to :
  length state_from = 4%nat → length state_to = 4%nat →
  is_transition_compatible self (swap_sites state_from, swap_sites state_to)
  = is_transition_compatible self (state_from, state_to).
Proof.
  intros (a0 & a1 & a2 & a3 & ->)%length_4_inv (b0 & b1 & b2 & b3 & ->)%length_4_inv.
  unfold swap_sites, item; simpl.
  unfold is_transition_compatible.
  destruct (state_space_shape self) as [shape|]; simpl; [|done].
  destruct (bool_decide_reflect (length shape = 4%nat)) as [Hlen|]; simpl; [|done].
  rewrite Hlen; simpl. rewrite !diff_positions_4.
  destruct (decide (a0 = b0)), (decide (a1 = b1)),
    (decide (a2 = b2)), (decide (a3 = b3)); subst; simpl;
    (rewrite ?bool_decide_true by done);
    (rewrite ?(bool_decide_false (_ = _ :> list Z)) by congruence); simpl;
    unfold is_tract_copy, item; simpl;
    repeat match goal with
           | |- context [bool_decide ?P] => destruct (bool_decide_reflect P)
           end; simpl; try done; congruence.
Qed.
End SwapPredicate.
Section SwapRate.
Context {F PM : Type} {NF : NpFloat F} {PMI : PMInterface F PM}.
Implicit Types (self : PSJSModel F PM) (state_from state_to : state).

Lemma cal_IGC_transition_rate_swap_paralogs self state_from state_to n proportion :
  length state_from = 4%nat → length state_to = 4%nat →
  cal_IGC_transition_rate self (swap_paralogs state_from, swap_paralogs state_to)
    n proportion
  = cal_IGC_transition_rate self (state_from, state_to) n proportion.
Proof.
  intros Hf Ht. unfold cal_IGC_transition_rate.
  rewrite is_transition_compatible_swap_paralogs by done.
  destruct (is_transition_compatible self (state_from, state_to)) as [[]|e];
    simpl; [|done|done].
  destruct (length_4_inv _ Hf) as (a0 & a1 & a2 & a3 & ->).
  destruct (length_4_inv _ Ht) as (b0 & b1 & b2 & b3 & ->).
  unfold swap_paralogs, item; simpl.
  destruct (bool_decide (IGC_pm self = "One rate")); [|done].
  destruct (exp_x_IGC self) as [[IGC_init IGC_p]|e]; simpl; [|done].
  rewrite !diff_positions_4.
  destruct (decide (a0 = b0)), (decide (a1 = b1)),
    (decide (a2 = b2)), (decide (a3 = b3)); subst; simpl; try done;
    unfold is_tract_copy, item; simpl;
    try (destruct (PMModel self) as [pm|]; simpl; [|done];
         destruct (PM_Q_mut pm _ _) as [q|e]; simpl; [|done]);
    repeat match goal with
           | |- context [bool_decide ?P] => destruct (bool_decide_reflect P)
           end; simpl; try done; congruence.
Qed.

Lemma cal_IGC_transition_rate_swap_sites self state_from state_to n proportion :
  length state_from = 4%nat → length state_to = 4%nat →
  cal_IGC_transition_rate self (swap_sites state_from, swap_sites state_to)
    n proportion
  = cal_IGC_transition_rate self (state_from, state_to) n proportion.
Proof.
  intros Hf Ht. unfold cal_IGC_transition_rate.
  rewrite is_transition_compatible_swap_sites by done.
  destruct (is_transition_compatible self (state_from, state_to)) as [[]|e];
    simpl; [|done|done].
  destruct (length_4_inv _ Hf) as (a0 & a1 & a2 & a3 & ->).
  destruct (length_4_inv _ Ht) as (b0 & b1 & b2 & b3 & ->).
  unfold swap_sites, item; simpl.
  destruct (bool_decide (IGC_pm self = "One rate")); [|done].
  destruct (exp_x_IGC self) as [[IGC_init IGC_p]|e]; simpl; [|done].
  rewrite !diff_positions_4.
  destruct (decide (a0 = b0)), (decide (a1 = b1)),
    (decide (a2 = b2)), (decide (a3 = b3)); subst; simpl; try done;
    unfold is_tract_copy, item; simpl;
    try (destruct (PMModel self) as [pm|]; simpl; [|done];
         destruct (PM_Q_mut pm _ _) as [q|e]; simpl; [|done]);
    repeat match goal with
           | |- context [bool_decide ?P] => destruct (bool_decide_reflect P)
           end; simpl; try done; congruence.
Qed.

(** X4. The model does not depend on which paralog is called the first or
    which site is called the first: exchanging the two paralogs in both
    states of a transition, or the two sites, changes neither the answer of
    [is_transition_compatible] nor the outcome of [cal_IGC_transition_rate]. *)
Theorem paralog_and_site_symmetry self state_from state_to n proportion :
  length state_from = 4%nat → length state_to = 4%nat →
  is_transition_compatible self (swap_paralogs state_from, swap_paralogs state_to)
  = is_transition_compatible self (state_from, state_to)
  ∧ is_transition_compatible self (swap_sites state_from, swap_sites state_to)
    = is_transition_compatible self (state_from, state_to)
  ∧ cal_IGC_transition_rate self (swap_paralogs state_from, swap_paralogs state_to)
      n proportion
    = cal_IGC_transition_rate self (state_from, state_to) n proportion
  ∧ cal_IGC_transition_rate self (swap_sites state_from, swap_sites state_to)
      n proportion
    = cal_IGC_transition_rate self (state_from, state_to) n proportion.
Proof.
  intros Hf Ht. split_and!.
  - by apply is_transition_compatible_swap_paralogs.
  - by apply is_transition_compatible_swap_sites.
  - by apply cal_IGC_transition_rate_swap_paralogs.
  - by apply cal_IGC_transition_rate_swap_sites.
Qed.
End SwapRate.
(** The script's transition, with the paralogs exchanged. *)
Lemma paralog_and_site_symmetry_witness :
  is_transition_compatible main_model
    (swap_paralogs [0; 2; 2; 3], swap_paralogs [0; 2; 2; 1])
  = is_transition_compatible main_model ([0; 2; 2; 3], [0; 2; 2; 1]).
Proof.
  exact (proj1 (paralog_and_site_symmetry (PMI := sample_PMInterface)
                  main_model [0; 2; 2; 3] [0; 2; 2; 1] 50 false eq_refl eq_refl)).
Defined.

(** The whole-tract copy (0,0,1,1) -> (1,1,1,1) cannot be undone in one step. *)
Lemma tract_copy_not_reversible_witness :
  is_transition_compatible main_model ([1; 1; 1; 1], [0; 0; 1; 1]) = Ok false
  ∧ item [1; 1; 1; 1] 0 = item [1; 1; 1; 1] 2
  ∧ item [1; 1; 1; 1] 1 = item [1; 1; 1; 1] 3.
Proof.
  exact (proj2 (tract_copy_not_reversible main_model [0; 0; 1; 1] [1; 1; 1; 1]
                  eq_refl) eq_refl).
Defined.

(** ** The force-map partition, put back together *)

Section ForceRoundTrip.
Context {F PM : Type} {NF : NpFloat F} {PMI : PMInterface F PM}.
Implicit Types (self : PSJSModel F PM) (f : gmap Z F).

Lemma constraints_absent_if_empty (d : gmap Z F) :
  constraints (absent_if_empty d) = d.
Proof. unfold constraints, absent_if_empty. by case_decide. Qed.

Lemma divide_force_lookup self f pm_force IGC_force :
  force self = Some f →
  divide_force self = Ok (pm_force, IGC_force) →
  (∀ key, constraints pm_force !! key = if decide (key < 4) then f !! key else None)
  ∧ (∀ key, constraints IGC_force !! key
            = if decide (0 ≤ key) then f !! (key + 4) else None)
  ∧ pm_force = absent_if_empty (constraints pm_force)
  ∧ IGC_force = absent_if_empty (constraints IGC_force).
Proof.
  intros Hf. unfold divide_force. rewrite Hf.
  destruct (bool_decide (pm_model self ∈ PMModel_supported)); [|discriminate].
  destruct (bool_decide (IGC_pm self ∈ supported)); [|discriminate].
  destruct (bool_decide (pm_model self = "HKY")); [|discriminate].
  destruct (bool_decide (IGC_pm self = "One rate")); [|discriminate]. simpl.
  pose proof (divide_step_foldl (map_to_list f) ∅ ∅ (NoDup_fst_map_to_list f)) as Hfold.
  cbv zeta in Hfold. rewrite list_to_map_to_list in Hfold.
  destruct (foldl (divide_step 4) (∅, ∅) (map_to_list f)) as [pm ig].
  simpl in Hfold. rewrite !none_if_empty_decide. intros [= <- <-].
  rewrite !constraints_absent_if_empty. split_and!; [| |done|done].
  - intros key. destruct (Hfold key) as [-> _].
    rewrite lookup_empty. destruct (f !! key); by case_decide.
  - intros key. destruct (Hfold key) as [_ ->].
    rewrite lookup_empty. destruct (f !! (key + 4)); by case_decide.
Qed.

(** X8. Nothing is lost or invented by [divide_force]: putting the IGC force
    map back under its global indices (key + 4) and merging it with the
    point-mutation force map gives the stored force map again; the first
    component is [None] exactly when no key is below 4 and the second exactly
    when no key is 4 or more. *)
Theorem divide_force_round_trip self f pm_force IGC_force :
  force self = Some f →
  divide_force self = Ok (pm_force, IGC_force) →
  constraints pm_force ∪ to_global_indices (constraints IGC_force) = f
  ∧ constraints pm_force ##ₘ to_global_indices (constraints IGC_force)
  ∧ (pm_force = None ↔ ∀ key, key < 4 → f !! key = None)
  ∧ (IGC_force = None ↔ ∀ key, 4 ≤ key → f !! key = None).
Proof.
  intros Hf Hcall.
  destruct (divide_force_lookup self f pm_force IGC_force Hf Hcall)
    as (Hpm & Higc & Hpmn & Hign).
  assert (∀ key, to_global_indices (constraints IGC_force) !! key
                 = if decide (4 ≤ key) then f !! key else None) as Hshift.
  { intros key.
    assert (key = global_IGC_index (key - 4)) as Hkey
      by (unfold global_IGC_index; lia).
    unfold to_global_indices. rewrite Hkey at 1. rewrite lookup_kmap, Higc.
    replace (key - 4 + 4) with key by lia.
    destruct (decide (0 ≤ key - 4)), (decide (4 ≤ key)); try done; try lia.
    apply _. }
  split_and!.
  - apply map_eq. intros key. rewrite lookup_union, Hpm, Hshift.
    repeat case_decide; try lia; destruct (f !! key); done.
  - apply map_disjoint_alt. intros key. rewrite Hpm, Hshift.
    repeat case_decide; auto; lia.
  - rewrite Hpmn. unfold absent_if_empty. case_decide as Hempty.
    + split; [|done]. intros _ key Hkey.
      pose proof (Hpm key) as Hk. rewrite Hempty, lookup_empty in Hk.
      by rewrite decide_True in Hk.
    + split; [done|]. intros Hnone. destruct Hempty. apply map_empty.
      intros key. rewrite Hpm. case_decide; auto.
  - rewrite Hign. unfold absent_if_empty. case_decide as Hempty.
    + split; [|done]. intros _ key Hkey.
      pose proof (Higc (key - 4)) as Hk. rewrite Hempty, lookup_empty in Hk.
      rewrite decide_True in Hk by lia. by replace (key - 4 + 4) with key in Hk by lia.
    + split; [done|]. intros Hnone. destruct Hempty. apply map_empty.
      intros key. rewrite Higc. case_decide; [apply Hnone; lia | done].
Qed.
End ForceRoundTrip.

(** The force map with keys 0 and 5 of [forced_model]. *)
Lemma divide_force_round_trip_witness :
  constraints (Some {[ 0 := Some (ln (3 / 10)) ]})
    ∪ to_global_indices (constraints (Some {[ 1 := Some 0%R ]}))
  = ({[ 0 := Some (ln (3 / 10)); 5 := Some 0%R ]} : gmap Z (option R)).
Proof.
  exact (proj1 (divide_force_round_trip (PMI := sample_PMInterface) forced_model
                  _ _ _ eq_refl divide_force_forced_model)).
Defined.

(** ** What the constructor establishes *)

Section ConstructorOutcomes.
Context {F PM : Type} {NF : NpFloat F} {PMI : PMInterface F PM}.
Implicit Types (self : PSJSModel F PM) (x : list F).

Lemma new_PSJSModel_unfold x pm_model0 n_orlg0 IGC_pm0 force0 n_js0 :
  new_PSJSModel x pm_model0 n_orlg0 IGC_pm0 force0 n_js0 =
    let fresh := fresh_PSJSModel x pm_model0 n_orlg0 IGC_pm0 force0 n_js0 in
    if negb (bool_decide (pm_model0 ∈ PMModel_supported (F := F) (PM := PM)))
    then Raise AssertionError
    else if negb (bool_decide (IGC_pm0 ∈ supported)) then Raise AssertionError
    else if negb (bool_decide (pm_model0 = "HKY"))
    then Raise (SystemExit "The point mutation model is not supported.")
    else if negb (bool_decide (IGC_pm0 = "One rate"))
    then Raise (SystemExit "The IGC parameterization has not been implemented.")
    else if negb (bool_decide (6%nat = length x)) then Raise AssertionError
    else
      '(pm_force, IGC_force0) ← divide_force fresh;
      pm ← PMModel_new pm_model0 (take 4 x) pm_force;
      if negb (bool_decide (size (list_to_set (replicate (Z.to_nat (n_js0 * 2)) 4)
                                  : gset Z) = 1%nat))
      then Raise AssertionError
      else
        match (PM_update_by_x_pm pm (take 4 x)).1 with
        | Ok _ =>
          Ok {| n_js := n_js0; x_js := x;
                x_pm := Some (take 4 x); x_IGC := Some (drop 4 x);
                IGC_force := IGC_force0; force := force0; IGC_pm := IGC_pm0;
                pm_model := pm_model0; n_orlg := n_orlg0;
                PMModel := Some (PM_update_by_x_pm pm (take 4 x)).2;
                state_space_shape := Some (replicate (Z.to_nat (n_js0 * 2)) 4) |}
        | Raise e => Raise e
        end.
Proof.
  cbv zeta. unfold new_PSJSModel, init_models.
  unfold mbind at 1 2, M_bind at 1 2, get_self at 1. simpl.
  rewrite unpack_x_js_unfold. simpl.
  destruct (bool_decide (pm_model0 ∈ PMModel_supported (F := F) (PM := PM)))
    eqn:Hsup; simpl; [|done].
  destruct (bool_decide (IGC_pm0 ∈ supported)) eqn:Higc; simpl; [|done].
  destruct (bool_decide (pm_model0 = "HKY")) eqn:Hhky; simpl; [|done].
  destruct (bool_decide (IGC_pm0 = "One rate")) eqn:Hone; simpl; [|done].
  destruct (bool_decide (6%nat = length x)) eqn:Hlen; simpl; [|done].
  unfold mbind, M_bind, get_self, assign, lift. simpl. rewrite Hhky. simpl.
  change (divide_force _)
    with (divide_force (fresh_PSJSModel x pm_model0 n_orlg0 IGC_pm0 force0 n_js0)).
  destruct (divide_force _) as [[pm_force IGC_force0]|e]; simpl; [|done].
  destruct (PMModel_new pm_model0 (take 4 x) pm_force) as [pm|e]; simpl; [|done].
  destruct (bool_decide (size _ = 1%nat)); simpl; [|done].
  rewrite update_by_x_js_unfold, unpack_x_js_unfold. simpl.
  rewrite Hsup, Higc, Hhky, Hone, Hlen. simpl.
  by destruct (PM_update_by_x_pm pm (take 4 x)) as [[[]|e] pm'].
Qed.
Lemma size_replicate_set (k : nat) (a : Z) :
  size (list_to_set (replicate k a) : gset Z) = 1%nat ↔ (0 < k)%nat.
Proof.
  destruct k as [|k].
  - change (list_to_set (replicate 0 a) : gset Z) with (∅ : gset Z).
    rewrite size_empty. lia.
  - assert (list_to_set (replicate k a) ⊆ ({[a]} : gset Z)) as Hsub.
    { induction k as [|k IH]; [apply empty_subseteq|].
      change (replicate (S k) a) with (a :: replicate k a).
      rewrite list_to_set_cons. by apply union_least. }
    change (replicate (S k) a) with (a :: replicate k a).
    rewrite list_to_set_cons, (comm_L (∪)), (subseteq_union_1_L _ _ Hsub).
    rewrite size_singleton. lia.
Qed.

Lemma divide_force_fresh x pm_model0 n_orlg0 IGC_pm0 force0 n_js0 self :
  force self = force0 → pm_model self = pm_model0 → IGC_pm self = IGC_pm0 →
  divide_force self
  = divide_force (fresh_PSJSModel x pm_model0 n_orlg0 IGC_pm0 force0 n_js0).
Proof. intros Hf Hp Hi. unfold divide_force. simpl. by rewrite Hf, Hp, Hi. Qed.

(** X9. Every instance the constructor returns satisfies: the models are
    "HKY" and "One rate"; the stored vector is the given one and has six
    entries, its first four stored as [x_pm] and its last two as [x_IGC];
    [n_js >= 1] and the state-space shape is [2 * n_js] fours; [force] and
    [n_orlg] are the arguments; [IGC_force] is the second component of
    [divide_force]; and the collaborator was built from [x_pm] and the first
    component and then updated with [x_pm]. *)
Theorem new_PSJSModel_establishes x pm_model0 n_orlg0 IGC_pm0 force0 n_js0 self :
  new_PSJSModel x pm_model0 n_orlg0 IGC_pm0 force0 n_js0 = Ok self →
  pm_model self = "HKY" ∧ "HKY" ∈ PMModel_supported (F := F) (PM := PM)
  ∧ IGC_pm self = "One rate"
  ∧ x_js self = x ∧ length x = 6%nat
  ∧ x_pm self = Some (take 4 x) ∧ x_IGC self = Some (drop 4 x)
  ∧ n_js self = n_js0 ∧ 1 ≤ n_js0
  ∧ state_space_shape self = Some (replicate (Z.to_nat (n_js0 * 2)) 4)
  ∧ force self = force0 ∧ n_orlg self = n_orlg0
  ∧ ∃ pm_force pm,
      divide_force self = Ok (pm_force, IGC_force self)
      ∧ PMModel_new "HKY" (take 4 x) pm_force = Ok pm
      ∧ (PM_update_by_x_pm pm (take 4 x)).1 = Ok tt
      ∧ PMModel self = Some (PM_update_by_x_pm pm (take 4 x)).2.
Proof.
  rewrite new_PSJSModel_unfold. cbv zeta.
  destruct (bool_decide_reflect (pm_model0 ∈ PMModel_supported (F := F) (PM := PM)))
    as [Hsup|]; simpl; [|discriminate].
  destruct (bool_decide (IGC_pm0 ∈ supported)); simpl; [|discriminate].
  destruct (bool_decide_reflect (pm_model0 = "HKY")) as [->|]; simpl; [|discriminate].
  destruct (bool_decide_reflect (IGC_pm0 = "One rate")) as [->|]; simpl; [|discriminate].
  destruct (bool_decide_reflect (6%nat = length x)) as [Hlen|]; simpl; [|discriminate].
  destruct (divide_force _) as [[pm_force IGC_force0]|e] eqn:Hdiv; simpl; [|discriminate].
  destruct (PMModel_new "HKY" (take 4 x) pm_force) as [pm|e] eqn:Hnew; simpl;
    [|discriminate].
  destruct (bool_decide_reflect
              (size (list_to_set (replicate (Z.to_nat (n_js0 * 2)) 4) : gset Z)
               = 1%nat)) as [Hsize|]; simpl; [|discriminate].
  apply size_replicate_set in Hsize.
  destruct (PM_update_by_x_pm pm (take 4 x)) as [[[]|e] pm'] eqn:Hupd; simpl;
    [|discriminate].
  intros [= <-]. simpl.
  do 12 (split; [done || lia|]).
  exists pm_force, pm. rewrite Hupd. simpl.
  split; [|done]. by erewrite divide_force_fresh.
Qed.

(** X10. The constructor rejects, with a configuration error, a model name
    that is not supported and a vector whose length is not 6; with supported
    names, a vector of length 6 and a collaborator that can be built it
    rejects [n_js <= 0] with an assertion error (the shape is empty); and with
    [n_js >= 1] it returns an instance whenever the collaborator can be built
    and updated. *)
Theorem new_PSJSModel_outcomes x pm_model0 n_orlg0 IGC_pm0 force0 n_js0 :
  let result : res (PSJSModel F PM) :=
    new_PSJSModel x pm_model0 n_orlg0 IGC_pm0 force0 n_js0 in
  let fresh : PSJSModel F PM :=
    fresh_PSJSModel x pm_model0 n_orlg0 IGC_pm0 force0 n_js0 in
  (pm_model0 ∉ PMModel_supported (F := F) (PM := PM) ∨ pm_model0 ≠ "HKY"
   ∨ IGC_pm0 ≠ "One rate" ∨ length x ≠ 6%nat →
   ∃ e, result = Raise e ∧ configuration_error e)
  ∧ (pm_model0 ∈ PMModel_supported (F := F) (PM := PM) → pm_model0 = "HKY" →
     IGC_pm0 = "One rate" → length x = 6%nat →
     ∃ pm_force IGC_force0,
       divide_force fresh = Ok (pm_force, IGC_force0)
       ∧ ∀ pm, PMModel_new "HKY" (take 4 x) pm_force = Ok pm →
           (n_js0 ≤ 0 → result = Raise AssertionError)
           ∧ (1 ≤ n_js0 → (PM_update_by_x_pm pm (take 4 x)).1 = Ok tt →
              ∃ self, result = Ok self)).
Proof.
  intros result fresh. subst result. rewrite new_PSJSModel_unfold. cbv zeta.
  fold fresh. unfold configuration_error, supported. split.
  - intros Hbad.
    destruct (bool_decide_reflect (pm_model0 ∈ PMModel_supported (F := F) (PM := PM)));
      simpl; [|eauto].
    destruct (bool_decide_reflect (IGC_pm0 ∈ ["One rate"])); simpl; [|eauto].
    destruct (bool_decide_reflect (pm_model0 = "HKY")); simpl; [|eauto].
    destruct (bool_decide_reflect (IGC_pm0 = "One rate")); simpl; [|eauto].
    destruct (bool_decide_reflect (6%nat = length x)); simpl; [|eauto].
    exfalso. destruct Hbad as [?|[?|[?|?]]]; done.
  - intros Hsup -> -> Hlen.
    rewrite !bool_decide_true by (done || set_solver). simpl.
    assert (∃ pm_force IGC_force0, divide_force fresh = Ok (pm_force, IGC_force0))
      as (pm_force & IGC_force0 & Hdiv).
    { subst fresh. unfold divide_force, supported. simpl.
      destruct force0 as [f|]; [|by eexists _, _].
      rewrite !bool_decide_true by (done || set_solver). simpl.
      destruct (foldl _ _ _). by eexists _, _. }
    exists pm_force, IGC_force0. split; [done|]. intros pm Hnew.
    rewrite Hdiv. simpl. rewrite Hnew. simpl. split.
    + intros Hn. rewrite bool_decide_false; [done|].
      rewrite size_replicate_set. lia.
    + intros Hn Hupd. rewrite bool_decide_true by (apply size_replicate_set; lia).
      simpl. rewrite Hupd. by eexists.
Qed.
End ConstructorOutcomes.

(** The script's constructor call. *)
Lemma new_PSJSModel_establishes_witness :
  x_pm main_model = Some (take 4 main_x_js)
  ∧ x_IGC main_model = Some (drop 4 main_x_js)
  ∧ state_space_shape main_model = Some (replicate (Z.to_nat (2 * 2)) 4).
Proof.
  destruct (new_PSJSModel_establishes (PMI := sample_PMInterface)
              main_x_js "HKY" 3 "One rate" None 2 main_model eq_refl)
    as (_ & _ & _ & _ & _ & Hpm & Higc & _ & _ & Hshape & _).
  exact (conj Hpm (conj Higc Hshape)).
Defined.

(** ** The entries of the process definition *)

Lemma is_transition_compatible_shape {F PM F' PM'}
    (self : PSJSModel F PM) (self' : PSJSModel F' PM') (t : transition) :
  length <$> state_space_shape self = length <$> state_space_shape self' →
  is_transition_compatible self t = is_transition_compatible self' t.
Proof.
  intros Hshape. unfold is_transition_compatible.
  destruct (state_space_shape self) as [shape|],
    (state_space_shape self') as [shape'|]; try discriminate; [|done].
  injection Hshape as Hlen. simpl. by rewrite Hlen.
Qed.

Lemma compatible_pairs_shape {F PM F' PM'}
    (self : PSJSModel F PM) (self' : PSJSModel F' PM') (alphabet : Z) :
  length <$> state_space_shape self = length <$> state_space_shape self' →
  compatible_pairs self alphabet = compatible_pairs self' alphabet.
Proof.
  intros Hshape. unfold compatible_pairs. apply list_filter_iff. intros t.
  unfold compatible. by rewrite (is_transition_compatible_shape self self').
Qed.

Lemma compatible_pairs_count : length (compatible_pairs shape_only_model 4) = 3360%nat.
Proof. vm_compute. reflexivity. Qed.

Lemma NoDup_list_prod {A B} (l : list A) (k : list B) :
  NoDup l → NoDup k → NoDup (list_prod l k).
Proof.
  intros Hl Hk. induction Hl as [|x l Hx Hl IH]; simpl; [constructor|].
  apply NoDup_app. split; [|split; [intros [a b]|done]].
  - by apply (NoDup_fmap_2 (pair x)).
  - intros [b' [[= -> ->] _]]%list_elem_of_fmap [Hin _]%list_elem_of_In%in_prod_iff.
    by apply Hx, list_elem_of_In.
Qed.

Lemma NoDup_joint_states_4 : NoDup (joint_states 4).
Proof. refine (bool_decide_unpack _ _). vm_compute. exact I. Qed.

Section Entries.
Context {F PM : Type} {NF : NpFloat F} {PMI : PMInterface F PM}.
Implicit Types (self : PSJSModel F PM).

Lemma compatible_differs self (t : transition) :
  compatible self t →
  t.1 ≠ t.2 ∧ (n_differing t.1 t.2 = 1%nat ∨ n_differing t.1 t.2 = 2%nat).
Proof.
  destruct t as [state_from state_to]. unfold compatible. simpl.
  destruct (is_transition_compatible self (state_from, state_to)) as [[]|] eqn:Hc;
    try done.
  intros _. destruct (compatible_inv _ _ _ Hc) as (Hf & Ht & Hcases).
  rewrite n_differing_length by done. split; [|tauto].
  intros ->. unfold is_transition_compatible in Hc.
  destruct (state_space_shape self); simpl in Hc; [|done].
  destruct (bool_decide (length l = 4%nat)); simpl in Hc; [|done].
  destruct (_ && _); simpl in Hc; [|done].
  by rewrite bool_decide_true in Hc.
Qed.

(** X11. On an instance whose shape has four entries, the first of them 4,
    and [n_js = 2], whenever [get_process_definition] returns, its three
    sequences have 3360 entries each; no entry is on the diagonal (row and
    column states differ, in one or two coordinates); and no (row, column)
    pair occurs twice. *)
Theorem process_definition_entries self rest n proportion pd :
  state_space_shape self = Some (4 :: rest) → length rest = 3%nat →
  n_js self = 2 →
  get_process_definition self n proportion = Ok pd →
  ∃ rows columns rates,
    pd !! "row_states" = Some (StateColumn rows)
    ∧ pd !! "column_states" = Some (StateColumn columns)
    ∧ pd !! (if proportion then "weights" else "transition_rates")
      = Some (RateColumn rates)
    ∧ length rows = 3360%nat ∧ length columns = 3360%nat
    ∧ length rates = 3360%nat
    ∧ NoDup (zip rows columns)
    ∧ Forall (λ rc, rc.1 ≠ rc.2
                    ∧ (n_differing rc.1 rc.2 = 1%nat ∨ n_differing rc.1 rc.2 = 2%nat))
        (zip rows columns).
Proof.
  intros Hshape Hlen Hn.
  rewrite (get_process_definition_refines self 4 rest n proportion) by done.
  unfold process_definition_spec.
  destruct (mapM _ _) as [rates|e] eqn:Hrates; simpl; [|discriminate].
  intros [= <-].
  apply mapM_res_Ok, Forall2_length in Hrates.
  assert (length (compatible_pairs self 4) = 3360%nat) as Hcount.
  { rewrite (compatible_pairs_shape self shape_only_model); [apply compatible_pairs_count|].
    rewrite Hshape. simpl. by rewrite Hlen. }
  exists (compatible_pairs self 4).*1, (compatible_pairs self 4).*2, rates.
  rewrite zip_fst_snd, !length_fmap. split_and!.
  - apply lookup_insert_eq.
  - rewrite lookup_insert_ne by done. apply lookup_insert_eq.
  - rewrite !lookup_insert_ne by (by destruct proportion). apply lookup_singleton_eq.
  - exact Hcount.
  - exact Hcount.
  - rewrite <- Hrates. exact Hcount.
  - apply NoDup_filter, NoDup_list_prod; apply NoDup_joint_states_4.
  - apply Forall_forall. intros t [Hc _]%list_elem_of_filter.
    by apply (compatible_differs self).
Qed.

Lemma get_process_definition_total self alphabet rest n proportion :
  state_space_shape self = Some (alphabet :: rest) → length rest = 3%nat →
  n_js self = 2 →
  IGC_pm self = "One rate" →
  (∃ xi xp, x_IGC self = Some [xi; xp]) →
  (∃ pm, PMModel self = Some pm
         ∧ ∀ a b, 0 ≤ a < alphabet → 0 ≤ b < alphabet →
                  ∃ q, PM_Q_mut pm a b = Ok q) →
  ∃ pd, get_process_definition self n proportion = Ok pd.
Proof.
  intros Hshape Hlen Hn Hone Hx (pm & Hpm & Hq).
  rewrite (get_process_definition_refines self alphabet rest n proportion) by done.
  unfold process_definition_spec.
  destruct (mapM_res_total (λ t, cal_IGC_transition_rate self t n proportion)
              (compatible_pairs self alphabet)) as [rates Hrates].
  { intros [state_from state_to] [Hc Hin]%list_elem_of_filter.
    apply list_elem_of_In, in_prod_iff in Hin as [Hf Ht].
    apply list_elem_of_In, elem_of_joint_states in Hf as [_ Hf].
    apply list_elem_of_In, elem_of_joint_states in Ht as [_ Ht].
    apply cal_IGC_transition_rate_total; [|done|done|].
    - unfold compatible in Hc.
      by destruct (is_transition_compatible self (state_from, state_to)) as [[]|].
    - exists pm. split; [done|]. intros i Hi. apply Hq; [by apply Hf | by apply Ht]. }
  rewrite Hrates. by eexists.
Qed.
End Entries.

(** The process definition of the script's instance at separation 10. *)
Lemma process_definition_entries_witness :
  ∃ pd rows columns rates,
    get_process_definition main_model 10 false = Ok pd
    ∧ pd !! "row_states" = Some (StateColumn rows)
    ∧ pd !! "column_states" = Some (StateColumn columns)
    ∧ pd !! "transition_rates" = Some (RateColumn rates)
    ∧ length rows = 3360%nat ∧ length columns = 3360%nat
    ∧ length rates = 3360%nat.
Proof.
  assert (∃ pm, PMModel main_model = Some pm
                ∧ ∀ a b, 0 ≤ a < 4 → 0 ≤ b < 4 → ∃ q, PM_Q_mut pm a b = Ok q)
    as Htable.
  { eexists; split; [reflexivity|]. intros a b Ha Hb.
    unfold PM_Q_mut, sample_PMInterface, sample_Q_mut.
    rewrite bool_decide_true by lia. by eexists. }
  destruct (get_process_definition_total (PMI := sample_PMInterface) main_model
              4 [4; 4; 4] 10 false eq_refl eq_refl eq_refl eq_refl
              (ex_intro _ _ (ex_intro _ _ eq_refl)) Htable) as [pd Hpd].
  destruct (process_definition_entries (PMI := sample_PMInterface) main_model
              [4; 4; 4] 10 false pd eq_refl eq_refl eq_refl Hpd)
    as (rows & columns & rates & Hrows & Hcols & Hrates & Hl1 & Hl2 & Hl3 & _).
  exists pd, rows, columns, rates.
  exact (conj Hpd (conj Hrows (conj Hcols (conj Hrates (conj Hl1 (conj Hl2 Hl3)))))).
Defined.

(** ** An instance built with two paralog states *)

Section Usable.
Context {F PM : Type} {NF : NpFloat F} {PMI : PMInterface F PM}.
Implicit Types (self : PSJSModel F PM) (x : list F)
  (state_from state_to : state).

Lemma new_PSJSModel_fields x pm_model0 n_orlg0 IGC_pm0 force0 n_js0 self :
  new_PSJSModel x pm_model0 n_orlg0 IGC_pm0 force0 n_js0 = Ok self →
  IGC_pm self = "One rate"
  ∧ (∃ xi xp, x_IGC self = Some [xi; xp])
  ∧ n_js self = n_js0
  ∧ state_space_shape self = Some (replicate (Z.to_nat (n_js0 * 2)) 4)
  ∧ ∃ pm, PMModel self = Some pm.
Proof.
  rewrite new_PSJSModel_unfold. cbv zeta.
  destruct (bool_decide (pm_model0 ∈ PMModel_supported (F := F) (PM := PM)));
    simpl; [|discriminate].
  destruct (bool_decide (IGC_pm0 ∈ supported)); simpl; [|discriminate].
  destruct (bool_decide (pm_model0 = "HKY")); simpl; [|discriminate].
  destruct (bool_decide_reflect (IGC_pm0 = "One rate")) as [->|]; simpl; [|discriminate].
  destruct (bool_decide_reflect (6%nat = length x)) as [Hlen|]; simpl; [|discriminate].
  destruct (divide_force _) as [[pm_force IGC_force0]|e]; simpl; [|discriminate].
  destruct (PMModel_new _ _ _) as [pm|e]; simpl; [|discriminate].
  destruct (bool_decide _); simpl; [|discriminate].
  destruct (PM_update_by_x_pm pm (take 4 x)) as [[[]|e] pm']; simpl; [|discriminate].
  intros [= <-]. simpl. split_and!; try done; [|by eexists].
  destruct x as [|? [|? [|? [|? [|xi [|xp [|? ?]]]]]]]; try discriminate Hlen.
  by exists xi, xp.
Qed.

(** X12. An instance the constructor returns with [n_js = 2] serves every
    call: [is_transition_compatible] answers with a boolean on every pair of
    4-coordinate states of one sequence type (two tuples, as the generator
    yields them, or two lists); and when the collaborator's rate table is
    defined on the symbols 0..3, [cal_IGC_transition_rate] returns a value on
    every compatible pair of states over 0..3 and [get_process_definition]
    returns a record, for every separation and either value of
    [proportion]. *)
Theorem constructed_instance_serves x pm_model0 n_orlg0 IGC_pm0 force0 self :
  new_PSJSModel x pm_model0 n_orlg0 IGC_pm0 force0 2 = Ok self →
  (∀ a b : sequence,
     type_of a = type_of b →
     length (entries a) = 4%nat → length (entries b) = 4%nat →
     ∃ answer, is_transition_compatible_sequences self (a, b) = Ok answer)
  ∧ ∃ pm, PMModel self = Some pm
      ∧ ((∀ a b, 0 ≤ a < 4 → 0 ≤ b < 4 → ∃ q, PM_Q_mut pm a b = Ok q) →
         ∀ n proportion,
           (∀ state_from state_to,
              (∀ i, (i < 4)%nat → 0 ≤ item state_from i < 4) →
              (∀ i, (i < 4)%nat → 0 ≤ item state_to i < 4) →
              is_transition_compatible self (state_from, state_to) = Ok true →
              ∃ rate, cal_IGC_transition_rate self (state_from, state_to) n proportion
                      = Ok rate)
           ∧ ∃ pd, get_process_definition self n proportion = Ok pd).
Proof.
  intros (Hone & Hx & Hn & Hshape & pm & Hpm)%new_PSJSModel_fields.
  change (replicate (Z.to_nat (2 * 2)) 4) with [4; 4; 4; 4] in Hshape.
  split.
  - intros a b Htype Ha Hb.
    rewrite is_transition_compatible_sequences_same_type by done.
    by apply (is_transition_compatible_total self [4; 4; 4; 4]).
  - exists pm. split; [done|]. intros Hq n proportion. split.
    + intros state_from state_to Hf Ht Hc.
      apply cal_IGC_transition_rate_total; [done..|].
      exists pm. split; [done|]. intros i Hi. by apply Hq; [apply Hf | apply Ht].
    + apply (get_process_definition_total self 4 [4; 4; 4]); [done..|].
      by exists pm.
Qed.
End Usable.

(** The script's instance: its transition at separation 50 has a rate and its
    process definition at separation 10 is returned. *)
Lemma constructed_instance_serves_witness :
  (∃ rate, cal_IGC_transition_rate main_model ([0; 2; 2; 3], [0; 2; 2; 1]) 50 false
           = Ok rate)
  ∧ ∃ pd, get_process_definition main_model 10 false = Ok pd.
Proof.
  destruct (constructed_instance_serves (PMI := sample_PMInterface)
              main_x_js "HKY" 3 "One rate" None main_model eq_refl)
    as (_ & pm & Hpm & Hserves).
  injection Hpm as <-.
  assert (∀ a b, 0 ≤ a < 4 → 0 ≤ b < 4 →
                 ∃ q, PM_Q_mut (mk_sample_PM "HKY" (take 4 main_x_js) None) a b = Ok q)
    as Htable.
  { intros a b Ha Hb. unfold PM_Q_mut, sample_PMInterface, sample_Q_mut.
    rewrite bool_decide_true by lia. by eexists. }
  split.
  - apply (proj1 (Hserves Htable 50 false)).
    + intros [|[|[|[|?]]]] ?; unfold item; simpl; lia.
    + intros [|[|[|[|?]]]] ?; unfold item; simpl; lia.
    + exact main_transition_compatible.
  - exact (proj2 (Hserves Htable 10 false)).
Defined.

(** ** What a parameter update leaves alone *)

Section UpdateFrame.
Context {F PM : Type} {NF : NpFloat F} {PMI : PMInterface F PM}.
Implicit Types (self : PSJSModel F PM) (x : list F).

(** X13. [update_by_x_js], whether it returns or raises, assigns to nothing
    but [x_js], [x_pm], [x_IGC] and the collaborator: the number of paralog
    states, the shape, both model names, [n_orlg], [force] and [IGC_force]
    are as before, and so are the answers of [is_transition_compatible] and of
    [divide_force]. *)
Theorem update_by_x_js_keeps_structure self x (t : transition) :
  let self' := (update_by_x_js x self).2 in
  n_js self' = n_js self
  ∧ state_space_shape self' = state_space_shape self
  ∧ pm_model self' = pm_model self ∧ IGC_pm self' = IGC_pm self
  ∧ n_orlg self' = n_orlg self
  ∧ force self' = force self ∧ IGC_force self' = IGC_force self
  ∧ is_transition_compatible self' t = is_transition_compatible self t
  ∧ divide_force self' = divide_force self.
Proof.
  cbv zeta.
  assert (n_js (update_by_x_js x self).2 = n_js self
          ∧ state_space_shape (update_by_x_js x self).2 = state_space_shape self
          ∧ pm_model (update_by_x_js x self).2 = pm_model self
          ∧ IGC_pm (update_by_x_js x self).2 = IGC_pm self
          ∧ n_orlg (update_by_x_js x self).2 = n_orlg self
          ∧ force (update_by_x_js x self).2 = force self
          ∧ IGC_force (update_by_x_js x self).2 = IGC_force self)
    as (Hn & Hs & Hp & Hi & Ho & Hf & Hg).
  { rewrite update_by_x_js_unfold, unpack_x_js_unfold.
    repeat (case_bool_decide; simpl; try done).
    by destruct (PMModel self). }
  split_and!; try done.
  - unfold is_transition_compatible. by rewrite Hs.
  - unfold divide_force. by rewrite Hf, Hp, Hi.
Qed.
End UpdateFrame.

(** ** How [cal_IGC_transition_rate] fails *)

Section Failures.
Context {F PM : Type} {NF : NpFloat F} {PMI : PMInterface F PM}.
Implicit Types (self : PSJSModel F PM) (state_from state_to : state).

(** X14. [cal_IGC_transition_rate] passes on an exception of
    [is_transition_compatible]; it fails its assertion on a transition the
    predicate rejects (before it looks at the parameterization); on a
    compatible transition it exits when the IGC parameterization is not
    "One rate"; and with "One rate" and a two-entry IGC slice the only way
    left to fail is the collaborator's table lookup at the one differing
    coordinate (or a missing collaborator): the two exits for an excluded
    difference pattern and the one of [get_other_pos] are never taken, and a
    two-coordinate transition never consults the collaborator. *)
Theorem cal_IGC_transition_rate_failures self state_from state_to n proportion :
  let t := (state_from, state_to) in
  let result := cal_IGC_transition_rate self t n proportion in
  (∀ e, is_transition_compatible self t = Raise e → result = Raise e)
  ∧ (is_transition_compatible self t = Ok false → result = Raise AssertionError)
  ∧ (is_transition_compatible self t = Ok true → IGC_pm self ≠ "One rate" →
     result = Raise (SystemExit "Cal_IGC_transition_rate not implemented yet."))
  ∧ (is_transition_compatible self t = Ok true → IGC_pm self = "One rate" →
     (∃ xi xp, x_IGC self = Some [xi; xp]) →
     (∃ rate, result = Ok rate)
     ∨ ∃ pos, diff_positions state_from state_to = [pos] ∧ (pos < 4)%nat
              ∧ match PMModel self with
                | None => result = Raise AttributeError
                | Some pm =>
                  ∃ e, PM_Q_mut pm (item state_from pos) (item state_to pos) = Raise e
                       ∧ result = Raise e
                end).
Proof.
  intros t result. subst t result. split_and!.
  - intros e He. unfold cal_IGC_transition_rate. by rewrite He.
  - intros He. unfold cal_IGC_transition_rate. by rewrite He.
  - intros He Hne. unfold cal_IGC_transition_rate. rewrite He. simpl.
    by rewrite bool_decide_false.
  - intros Hcompat Hone (xi & xp & Hx).
    destruct (compatible_inv _ _ _ Hcompat) as (Hlf & Hlt & [Hsingle|[Hdouble Hcopy]]).
    + destruct (diff_positions state_from state_to) as [|pos [|? ?]] eqn:Hdiff;
        try discriminate Hsingle.
      assert (pos < 4)%nat as Hpos.
      { assert (pos ∈ diff_positions state_from state_to) as Hin
          by (rewrite Hdiff; apply list_elem_of_here).
        apply list_elem_of_filter in Hin as [_ Hin].
        apply elem_of_seq in Hin. lia. }
      destruct (PMModel self) as [pm|] eqn:Hpm.
      * destruct (PM_Q_mut pm (item state_from pos) (item state_to pos))
          as [q|e] eqn:Hq.
        -- left. eexists.
           exact (cal_IGC_transition_rate_at_pos self state_from state_to pos n
                    proportion pm xi xp q Hcompat Hdiff Hone Hx Hpm Hq).
        -- right. exists pos. split_and!; [done..|]. exists e. split; [done|].
           unfold cal_IGC_transition_rate. rewrite Hcompat; simpl.
           rewrite Hdiff, (bool_decide_true _ Hone); simpl.
           unfold exp_x_IGC; rewrite Hx; simpl. rewrite Hpm; simpl.
           destruct pos as [|[|[|[|?]]]]; try lia; simpl; by rewrite Hq.
      * right. exists pos. split_and!; [done..|].
        unfold cal_IGC_transition_rate. rewrite Hcompat; simpl.
        rewrite Hdiff, (bool_decide_true _ Hone); simpl.
        unfold exp_x_IGC; rewrite Hx; simpl. rewrite Hpm; simpl.
        by destruct pos as [|[|[|[|?]]]]; try lia.
    + left. eexists.
      apply cal_IGC_transition_rate_double; try done.
      by rewrite n_differing_length.
Qed.
End Failures.

(** ** When [get_process_definition] returns *)

Lemma mapM_res_Raise {A B} (f : A → res B) (l : list A) (e : exn) :
  mapM f l = Raise e → ∃ x, x ∈ l ∧ f x = Raise e.
Proof.
  induction l as [|x l IH]; simpl; [discriminate|].
  destruct (f x) as [y|e'] eqn:Hfx; simpl.
  - destruct (mapM f l) as [k|e'] eqn:Hl; simpl; [discriminate|].
    intros [= ->]. destruct IH as (z & Hz & Hfz); [done|].
    exists z. split; [by apply list_elem_of_further | done].
  - intros [= ->]. exists x. split; [apply list_elem_of_here | done].
Qed.

Section Returns.
Context {F PM : Type} {NF : NpFloat F} {PMI : PMInterface F PM}.
Implicit Types (self : PSJSModel F PM) (state_from state_to : state).

(** X15. On an instance with a 4-coordinate state space ([n_js = 2]),
    [get_process_definition] is all or nothing: it returns a record exactly
    when [cal_IGC_transition_rate] returns on every compatible pair of states
    of the state space, and an exception it raises is one that
    [cal_IGC_transition_rate] raises on such a pair. *)
Theorem get_process_definition_all_or_nothing self alphabet rest n proportion :
  state_space_shape self = Some (alphabet :: rest) → length rest = 3%nat →
  n_js self = 2 →
  ((∃ pd, get_process_definition self n proportion = Ok pd)
   ↔ ∀ state_from state_to,
       state_from ∈ joint_states alphabet → state_to ∈ joint_states alphabet →
       is_transition_compatible self (state_from, state_to) = Ok true →
       ∃ rate, cal_IGC_transition_rate self (state_from, state_to) n proportion
               = Ok rate)
  ∧ ∀ e, get_process_definition self n proportion = Raise e →
      ∃ state_from state_to,
        state_from ∈ joint_states alphabet ∧ state_to ∈ joint_states alphabet
        ∧ is_transition_compatible self (state_from, state_to) = Ok true
        ∧ cal_IGC_transition_rate self (state_from, state_to) n proportion = Raise e.
Proof.
  intros Hshape Hlen Hn.
  rewrite (get_process_definition_refines self alphabet rest n proportion) by done.
  unfold process_definition_spec.
  assert (∀ state_from state_to,
            (state_from, state_to) ∈ compatible_pairs self alphabet
            ↔ (state_from ∈ joint_states alphabet ∧ state_to ∈ joint_states alphabet)
              ∧ is_transition_compatible self (state_from, state_to) = Ok true)
    as Hpairs.
  { intros state_from state_to. unfold compatible_pairs.
    rewrite list_elem_of_filter, list_elem_of_In, in_prod_iff, <- !list_elem_of_In.
    unfold compatible.
    destruct (is_transition_compatible self (state_from, state_to)) as [[]|];
      simpl; intuition (discriminate || auto). }
  split; [split|].
  - intros [pd Hpd] state_from state_to Hf Ht Hc.
    destruct (mapM _ _) as [rates|e] eqn:Hrates; simpl in Hpd; [|discriminate].
    apply mapM_res_Ok in Hrates.
    assert ((state_from, state_to) ∈ compatible_pairs self alphabet) as Hin
      by (by apply Hpairs).
    apply list_elem_of_lookup in Hin as [i Hi].
    destruct (Forall2_lookup_l _ _ _ _ _ Hrates Hi) as (rate & _ & Hrate).
    by exists rate.
  - intros Hall.
    destruct (mapM_res_total (λ t, cal_IGC_transition_rate self t n proportion)
                (compatible_pairs self alphabet)) as [rates Hrates].
    { intros [state_from state_to] [[Hf Ht] Hc]%Hpairs. by apply Hall. }
    rewrite Hrates. by eexists.
  - intros e He.
    destruct (mapM _ _) as [rates|e'] eqn:Hrates; simpl in He; [discriminate|].
    injection He as ->.
    apply mapM_res_Raise in Hrates as ([state_from state_to] & Hin & Hraise).
    apply Hpairs in Hin as [[Hf Ht] Hc].
    by exists state_from, state_to.
Qed.
End Returns.

(** The script's instance returns its process definition at separation 10, so
    the rate of the script's transition at that separation is defined. *)
Lemma get_process_definition_all_or_nothing_witness :
  ∃ rate, cal_IGC_transition_rate main_model ([0; 2; 2; 3], [0; 2; 2; 1]) 10 false
          = Ok rate.
Proof.
  assert (∃ pm, PMModel main_model = Some pm
                ∧ ∀ a b, 0 ≤ a < 4 → 0 ≤ b < 4 → ∃ q, PM_Q_mut pm a b = Ok q)
    as Htable.
  { eexists; split; [reflexivity|]. intros a b Ha Hb.
    unfold PM_Q_mut, sample_PMInterface, sample_Q_mut.
    rewrite bool_decide_true by lia. by eexists. }
  pose proof (get_process_definition_total (PMI := sample_PMInterface) main_model
                4 [4; 4; 4] 10 false eq_refl eq_refl eq_refl eq_refl
                (ex_intro _ _ (ex_intro _ _ eq_refl)) Htable) as Hpd.
  apply (proj1 (proj1 (get_process_definition_all_or_nothing
                         (PMI := sample_PMInterface) main_model 4 [4; 4; 4] 10 false
                         eq_refl eq_refl eq_refl)) Hpd).
  - refine (bool_decide_unpack _ _). vm_compute. exact I.
  - refine (bool_decide_unpack _ _). vm_compute. exact I.
  - exact main_transition_compatible.
Defined.

(** ** The sign of the rates *)

Lemma mapM_res_Forall {A B} (f : A → res B) (P : B → Prop) (l : list A) :
  (∀ x, x ∈ l → ∃ y, f x = Ok y ∧ P y) → ∃ k, mapM f l = Ok k ∧ Forall P k.
Proof.
  induction l as [|x l IH]; intros Hf; simpl; [by eexists|].
  destruct (Hf x) as (y & Hy & HP); [apply list_elem_of_here|].
  destruct IH as (k & Hk & HPk); [intros z Hz; apply Hf; by apply list_elem_of_further|].
  rewrite Hy, Hk. simpl. eexists. split; [done|]. by constructor.
Qed.

Section Sign.
Context {F PM : Type} {NF : NpFloat F} {PMI : PMInterface F PM}
  {FV : FloatValue F} {FL : Float64Laws F}.
Implicit Types (self : PSJSModel F PM) (state_from state_to : state).

Lemma add_nonneg_or_inf (x y : F) (a : R) :
  f_value x = Finite a → (0 <= a)%R → nonneg_or_inf y → nonneg_or_inf (x + y)%npf.
Proof.
  intros Hx Ha [Hinf | (b & Hy & Hb)].
  - left. by apply (add_inf _ _ a).
  - destruct (add_nonneg x y a b Hx Hy Ha Hb) as [?|(s & Hs & Has & _)]; [by left|].
    right. exists s. split; [done | lra].
Qed.

Lemma cal_IGC_transition_rate_nonneg self state_from state_to n pm xi xp :
  is_transition_compatible self (state_from, state_to) = Ok true →
  IGC_pm self = "One rate" →
  x_IGC self = Some [xi; xp] →
  PMModel self = Some pm →
  let IGC_init := f_exp xi in
  let IGC_p := f_exp xp in
  let rate_tract_excludes_n :=
    (IGC_init / IGC_p * (f_one - (f_one - IGC_p) ** n))%npf in
  let rate_tract_includes_n := (IGC_init / IGC_p * (f_one - IGC_p) ** n)%npf in
  (∃ e, f_value rate_tract_excludes_n = Finite e ∧ (0 <= e)%R) →
  (∃ i, f_value rate_tract_includes_n = Finite i ∧ (0 <= i)%R) →
  (∀ pos, (pos < 4)%nat → item state_from pos ≠ item state_to pos →
          ∃ q_mut q, PM_Q_mut pm (item state_from pos) (item state_to pos) = Ok q_mut
                     ∧ f_value q_mut = Finite q ∧ (0 <= q)%R) →
  ∃ rate, cal_IGC_transition_rate self (state_from, state_to) n false = Ok rate
          ∧ nonneg_or_inf rate.
Proof.
  intros Hcompat Hone Hx Hpm IGC_init IGC_p rate_tract_excludes_n
    rate_tract_includes_n (e & He & He0) (i & Hi & Hi0) Hq.
  destruct (compatible_inv _ _ _ Hcompat) as (Hlf & Hlt & Hcases).
  destruct Hcases as [Hsingle | [Hdouble _]].
  - destruct (diff_positions state_from state_to) as [|pos [|? ?]] eqn:Hdiff;
      try discriminate.
    assert (pos ∈ diff_positions state_from state_to) as Hin
      by (rewrite Hdiff; apply list_elem_of_here).
    apply list_elem_of_filter in Hin as [Hne Hin]. apply elem_of_seq in Hin.
    destruct (Hq pos ltac:(lia) Hne) as (q_mut & q & Hqv & Hqf & Hq0).
    pose proof (cal_IGC_transition_rate_at_pos self state_from state_to pos n false
                  _ _ _ _ Hcompat Hdiff Hone Hx Hpm Hqv) as Hcal.
    cbv zeta in Hcal. unfold IGC_0_not_n, IGC_0_and_n in Hcal.
    fold IGC_init IGC_p in Hcal.
    fold rate_tract_excludes_n rate_tract_includes_n in Hcal.
    eexists. split; [exact Hcal|].
    apply (add_nonneg_or_inf _ _ q); [done..|].
    unfold igc_contribution.
    destruct (nth pos adjacency (0, 0, 0)%nat) as [[? ?] ?].
    repeat case_decide.
    + by apply (add_nonneg_or_inf _ _ e); [| |right; exists i].
    + right. by exists e.
    + right. exists 0%R. split; [apply value_zero | lra].
  - assert (n_differing state_from state_to = 2%nat) as Hd
      by (by rewrite n_differing_length).
    pose proof (cal_IGC_transition_rate_double self state_from state_to n false
                  _ _ Hcompat Hd Hone Hx) as Hcal.
    cbv zeta in Hcal. unfold IGC_0_and_n in Hcal.
    fold IGC_init IGC_p in Hcal. fold rate_tract_includes_n in Hcal.
    eexists. split; [exact Hcal|].
    right. exists i. by rewrite add_zero_l.
Qed.

(** X16. When the two tract rates the code computes for the separation [n]
    are nonnegative finite numbers and so are the collaborator's rates between
    distinct symbols of the alphabet, [get_process_definition(n)] returns and
    every entry of its [transition_rates] is a nonnegative finite number or
    inf: never a negative number and never nan. *)
Theorem process_definition_rates_nonneg self alphabet rest n pm xi xp :
  state_space_shape self = Some (alphabet :: rest) → length rest = 3%nat →
  n_js self = 2 →
  IGC_pm self = "One rate" →
  x_IGC self = Some [xi; xp] →
  PMModel self = Some pm →
  let IGC_init := f_exp xi in
  let IGC_p := f_exp xp in
  let rate_tract_excludes_n :=
    (IGC_init / IGC_p * (f_one - (f_one - IGC_p) ** n))%npf in
  let rate_tract_includes_n := (IGC_init / IGC_p * (f_one - IGC_p) ** n)%npf in
  (∃ e, f_value rate_tract_excludes_n = Finite e ∧ (0 <= e)%R) →
  (∃ i, f_value rate_tract_includes_n = Finite i ∧ (0 <= i)%R) →
  (∀ a b, 0 ≤ a < alphabet → 0 ≤ b < alphabet → a ≠ b →
          ∃ q_mut q, PM_Q_mut pm a b = Ok q_mut
                     ∧ f_value q_mut = Finite q ∧ (0 <= q)%R) →
  ∃ pd rates,
    get_process_definition self n false = Ok pd
    ∧ pd !! "transition_rates" = Some (RateColumn rates)
    ∧ Forall (λ rate, f_value rate = PosInf
                      ∨ ∃ r, f_value rate = Finite r ∧ (0 <= r)%R) rates.
Proof.
  intros Hshape Hlen Hnjs Hone Hx Hpm IGC_init IGC_p rate_tract_excludes_n
    rate_tract_includes_n He Hi Hq.
  rewrite (get_process_definition_refines self alphabet rest n false) by done.
  unfold process_definition_spec.
  destruct (mapM_res_Forall (λ t, cal_IGC_transition_rate self t n false)
              nonneg_or_inf (compatible_pairs self alphabet))
    as (rates & Hrates & Hsign).
  { intros [state_from state_to] [Hc Hin]%list_elem_of_filter.
    apply list_elem_of_In, in_prod_iff in Hin as [Hf Ht].
    apply list_elem_of_In, elem_of_joint_states in Hf as [_ Hf].
    apply list_elem_of_In, elem_of_joint_states in Ht as [_ Ht].
    assert (is_transition_compatible self (state_from, state_to) = Ok true) as Hcompat.
    { unfold compatible in Hc.
      by destruct (is_transition_compatible self (state_from, state_to)) as [[]|]. }
    apply (cal_IGC_transition_rate_nonneg self state_from state_to n pm xi xp);
      try done.
    intros pos Hpos Hne. by apply Hq; [apply Hf | apply Ht |]. }
  rewrite Hrates. eexists _, rates. split; [reflexivity|]. split; [|exact Hsign].
  rewrite !lookup_insert_ne by done. apply lookup_singleton_eq.
Qed.
End Sign.

(** The script's instance at separation 10 ([IGC_p = 1/30]; the sample
    collaborator's rate between distinct nucleotides is 1/4). *)
Lemma process_definition_rates_nonneg_witness :
  ∃ pd rates,
    get_process_definition main_model 10 false = Ok pd
    ∧ pd !! "transition_rates" = Some (RateColumn rates)
    ∧ Forall (λ rate, f_value rate = PosInf
                      ∨ ∃ r, f_value rate = Finite r ∧ (0 <= r)%R) rates.
Proof.
  assert (ln (1 / 30) <= 0)%R as Hxp
    by (rewrite <- ln_1; left; apply ln_increasing; lra).
  destruct (tract_rates_nonneg (ln (3 / 10)) (ln (1 / 30)) 10 Hxp ltac:(lia))
    as (e & i & He & Hi & He0 & Hi0).
  unfold IGC_0_not_n in He. unfold IGC_0_and_n in Hi.
  refine (process_definition_rates_nonneg (PMI := sample_PMInterface) main_model
            4 [4; 4; 4] 10 (mk_sample_PM "HKY" (take 4 main_x_js) None)
            (Some (ln (3 / 10))) (Some (ln (1 / 30)))
            eq_refl eq_refl eq_refl eq_refl eq_refl eq_refl _ _ _).
  - exists e. split; [|done].
    change (f_exp (Some (ln (3 / 10))%R)) with (Some (exp (ln (3 / 10)))).
    change (f_exp (Some (ln (1 / 30))%R)) with (Some (exp (ln (1 / 30)))).
    by rewrite He.
  - exists i. split; [|done].
    change (f_exp (Some (ln (3 / 10))%R)) with (Some (exp (ln (3 / 10)))).
    change (f_exp (Some (ln (1 / 30))%R)) with (Some (exp (ln (1 / 30)))).
    by rewrite Hi.
  - intros a b Ha Hb Hne. unfold PM_Q_mut, sample_PMInterface, sample_Q_mut.
    rewrite bool_decide_true by lia.
    rewrite bool_decide_false by (rewrite !Z.mod_small by lia; done).
    eexists _, _. split; [reflexivity|]. split; [reflexivity | lra].
Defined.
